(** * bug_fixing_agent.py: the scenario orchestrator and its guideline ledger

    A shallow embedding of [src/bug_fixing_agent.py].

    - Python [str] values are [string]s whose characters are the code points
      below 256; [is_space] is [str.isspace] on that range, which is also
      what the regular-expression class [\s] matches.
    - The external collaborators (git, the test command, the completion
      service, the terminal, [json.loads]) are the fields of [Env]: each
      answer may depend on the whole history of calls made so far.
    - The orchestrator threads a [world]: the working tree, the durable
      files, the guideline items and the history of collaborator calls. *)

From Stdlib Require Import Ascii String.
From stdpp Require Import base numbers list strings gmap pretty.

Local Open Scope string_scope.
Local Open Scope Z_scope.

(** ** Python string primitives *)

Module PyStr.

Definition LF : ascii := "010"%char.
Definition CR : ascii := "013"%char.
Definition nl : string := String LF "".

(** [str.isspace] for one character (code points below 256):
    TAB LF VT FF CR, FS GS RS US, SPACE, NEL, NBSP. *)
Definition is_space (c : ascii) : bool :=
  let n := N_of_ascii c in
  ((9 <=? n) && (n <=? 13) || (28 <=? n) && (n <=? 32)
   || (n =? 133) || (n =? 160))%N.

(** The line boundaries of [str.splitlines]: LF VT FF CR FS GS RS NEL. *)
Definition is_linebreak (c : ascii) : bool :=
  let n := N_of_ascii c in
  ((10 <=? n) && (n <=? 13) || (28 <=? n) && (n <=? 30) || (n =? 133))%N.

Definition ascii_eqb (a b : ascii) : bool := bool_decide (a = b).

Fixpoint lstrip (s : string) : string :=
  match s with
  | "" => ""
  | String c s' => if is_space c then lstrip s' else s
  end.

Fixpoint rstrip (s : string) : string :=
  match s with
  | "" => ""
  | String c s' =>
      match rstrip s' with
      | "" => if is_space c then "" else String c ""
      | r => String c r
      end
  end.

(** [s.strip()] *)
Definition strip (s : string) : string := rstrip (lstrip s).


(** [s.splitlines()]: CR LF counts as one boundary and a final boundary
    opens no further line. *)
Fixpoint splitlines (s : string) : list string :=
  match s with
  | "" => []
  | String c s' =>
      if is_linebreak c then
        match s' with
        | String c2 s'' =>
            if ascii_eqb c CR && ascii_eqb c2 LF
            then "" :: splitlines s'' else "" :: splitlines s'
        | "" => [""]
        end
      else
        match splitlines s' with
        | [] => [String c ""]
        | l :: ls => String c l :: ls
        end
  end.

(** The lines between LF characters, as [s.split("\n")] gives them; these
    are the stretches between the positions where [^] and [$] match under
    [re.MULTILINE]. *)
Fixpoint lines_lf (s : string) : list string :=
  match s with
  | "" => [""]
  | String c s' =>
      if ascii_eqb c LF then "" :: lines_lf s'
      else match lines_lf s' with
           | [] => [String c ""]
           | l :: ls => String c l :: ls
           end
  end.

(** [s.startswith(p)], returning what follows the prefix. *)
Fixpoint strip_prefix (p s : string) : option string :=
  match p, s with
  | "", _ => Some s
  | String a p', String b s' =>
      if ascii_eqb a b then strip_prefix p' s' else None
  | String _ _, "" => None
  end.

Definition startswith (s p : string) : bool :=
  match strip_prefix p s with Some _ => true | None => false end.

(** [s[:n]] for [0 <= n]. *)
Fixpoint slice_to (n : nat) (s : string) : string :=
  match n, s with
  | O, _ => ""
  | S _, "" => ""
  | S n', String c s' => String c (slice_to n' s')
  end.

(** [sep.join(parts)] *)
Fixpoint join (sep : string) (parts : list string) : string :=
  match parts with
  | [] => ""
  | [p] => p
  | p :: ps => p ++ sep ++ join sep ps
  end.

(** ["".join(parts)] *)
Definition concat (parts : list string) : string :=
  foldr String.append "" parts.

(** [s.split(sep, 1)] for a one-character separator: the text before the
    first separator and, when there is one, the text after it. *)
Fixpoint split_once (sep : ascii) (s : string) : string * option string :=
  match s with
  | "" => ("", None)
  | String c s' =>
      if ascii_eqb c sep then ("", Some s')
      else let '(a, b) := split_once sep s' in (String c a, b)
  end.

(** [s.split(sep, 2)] *)
Definition split2 (sep : ascii) (s : string) : list string :=
  match split_once sep s with
  | (a, None) => [a]
  | (a, Some r) =>
      match split_once sep r with
      | (b, None) => [a; b]
      | (b, Some r') => [a; b; r']
      end
  end.

(** [text.read_text()]: universal newlines turn CR LF and a lone CR
    into LF. *)
Fixpoint universal_newlines (s : string) : string :=
  match s with
  | "" => ""
  | String c s' =>
      if ascii_eqb c CR then
        match s' with
        | String c2 s'' =>
            if ascii_eqb c2 LF then String LF (universal_newlines s'')
            else String LF (universal_newlines s')
        | "" => String LF ""
        end
      else String c (universal_newlines s')
  end.

(** [s] is not empty and its last character is no whitespace. *)
Fixpoint ends_clean (s : string) : bool :=
  match s with
  | "" => false
  | String c "" => negb (is_space c)
  | String _ s' => ends_clean s'
  end.

(** Do all characters of [s] satisfy [f]? *)
Fixpoint all_chars (f : ascii → bool) (s : string) : bool :=
  match s with
  | "" => true
  | String a s' => f a && all_chars f s'
  end.

(** Does [c] not occur in [s]? *)
Fixpoint lacks (c : ascii) (s : string) : bool :=
  match s with
  | "" => true
  | String a s' => negb (ascii_eqb a c) && lacks c s'
  end.

End PyStr.
Import PyStr.

(** ** Configuration ([Config], lines 49-66) *)

Record Config := {
  max_fix_attempts_per_bug : Z;
  max_refine_iterations_per_bug : Z;
  logs_dir : string;
  guidelines_file : string;
  require_approval : bool
}.

(** [range(lo, hi)] *)
Definition range (lo hi : Z) : list Z :=
  (λ i : nat, lo + Z.of_nat i) <$> seq 0 (Z.to_nat (hi - lo)).

(** ** The guideline ledger ([Guidelines], lines 253-278) *)

Module Guidelines.

Definition header : string :=
  "# Bug-Fixer Prompt Guidelines (evolving)" ++ nl ++ nl ++
  "These are generalized, non-specific lessons learned. Avoid revealing exact historical fixes."
  ++ nl ++ nl.

Definition bullet (it : string) : string := "- " ++ it ++ nl.

(** The text [save] writes (lines 266-269). *)
Definition save_text (items : list string) : string :=
  header ++ concat (bullet <$> items).

(** One match of [^- (.+)$] on a line: group 1. *)
Definition bullet_block (line : string) : option string :=
  match strip_prefix "- " line with
  | Some "" => None
  | Some rest => Some rest
  | None => None
  end.

(** [re.findall(r"^- (.+)$", text, flags=re.MULTILINE)] (line 262). *)
Definition findall_blocks (text : string) : list string :=
  omap bullet_block (lines_lf text).

(** The items [load] computes from the file's text (lines 261-263). *)
Definition load_text (content : string) : list string :=
  filter (λ b, b ≠ "") (strip <$> findall_blocks (universal_newlines content)).

(** [load] (lines 259-263): a missing file leaves the items as they are. *)
Definition load (file : option string) (items : list string) : list string :=
  match file with
  | Some content => load_text content
  | None => items
  end.

Definition default_bullets : string :=
  "- Think step-by-step. Isolate root cause before editing." ++ nl ++
  "- Do not modify tests. Change only the minimal app code." ++ nl ++
  "- Prefer small, targeted diffs. Preserve public APIs." ++ nl ++
  "- Check for null/undefined, off-by-one, and incorrect assumptions." ++ nl ++
  "- Respect TypeScript types; ensure code compiles." ++ nl.

(** [as_bullets] (lines 271-278) *)
Definition as_bullets (items : list string) : string :=
  match items with
  | [] => default_bullets
  | _ => concat (bullet <$> items)
  end.

(** An item that fits the one-line format of the file: not empty, with no
    whitespace at its ends and no line feed or carriage return inside. *)
Definition storable (it : string) : Prop :=
  it ≠ "" ∧ strip it = it ∧ lacks LF it = true ∧ lacks CR it = true.

(** The deduplicating append of lines 557-560:
    [for g in new_guides: if g not in merged: merged.append(g)]. *)
Definition merged (items new_guides : list string) : list string :=
  foldl (λ (acc : list string) (g : string),
           if decide (g ∈ acc) then acc else (acc ++ [g])%list)
        items new_guides.

End Guidelines.

(** ** Helpers of the orchestrator (lines 166-187, 512-514) *)

(** Does some position where [^] matches under [re.MULTILINE] (the start of
    the text or just after a LF) satisfy [m]? *)
Fixpoint after_some_lf (m : string → bool) (s : string) : bool :=
  match s with
  | "" => false
  | String c s' => ascii_eqb c LF && m s' || after_some_lf m s'
  end.

Definition search_multiline (m : string → bool) (s : string) : bool :=
  m s || after_some_lf m s.

(** [\s*diff\s+--git\s] matched at the start of [s]. *)
Definition match_diff_git (s : string) : bool :=
  match strip_prefix "diff" (lstrip s) with
  | Some (String c r) =>
      is_space c &&
      match strip_prefix "--git" (lstrip r) with
      | Some (String c2 _) => is_space c2
      | _ => false
      end
  | _ => false
  end.

(** [\s*---\s] matched at the start of [s]. *)
Definition match_triple_dash (s : string) : bool :=
  match strip_prefix "---" (lstrip s) with
  | Some (String c _) => is_space c
  | _ => false
  end.

(** [looks_like_diff] (lines 513-514 and 587-588). *)
Definition looks_like_diff (proposed : string) : bool :=
  search_multiline match_diff_git proposed
  || search_multiline match_triple_dash proposed.


(** [count_diff_lines] (lines 183-187). *)
Definition count_diff_lines (diff_text : string) : nat * nat :=
  let lines := splitlines diff_text in
  (length (filter (λ l, startswith l "+" && negb (startswith l "+++")) lines),
   length (filter (λ l, startswith l "-" && negb (startswith l "---")) lines)).

(** [git_diff_name_only] (lines 120-122), on the output of
    [git diff --name-only]. *)
Definition git_diff_name_only (out : string) : list string :=
  strip <$> filter (λ line, strip line ≠ "") (splitlines out).

(** ** Reading a source file ([read_file_bytes], lines 154-164) *)

Module Bytes.

(** [data[:k]]: a negative [k] counts from the end. *)
Definition upto {A} (k : Z) (data : list A) : list A :=
  if decide (0 ≤ k) then take (Z.to_nat k) data
  else take (Z.to_nat (Z.of_nat (length data) + k)) data.

(** [data[k:]]: a negative [k] counts from the end. *)
Definition from {A} (k : Z) (data : list A) : list A :=
  if decide (0 ≤ k) then drop (Z.to_nat k) data
  else drop (Z.to_nat (Z.of_nat (length data) + k)) data.

End Bytes.

(** [read_file_bytes] (lines 154-164). [file] is what [read_bytes] finds,
    [None] for [FileNotFoundError]; [decode] is
    [bytes.decode("utf-8", errors="ignore")]; [snip] is the marker of line
    161, whose ellipsis lies outside the characters of [string]. The
    quotient [//] rounds down, and so does [`div`] for the divisor 2. *)
Definition read_file_bytes (decode : list Byte.byte → string) (snip : string)
  (file : option (list Byte.byte)) (max_bytes : Z) : string :=
  match file with
  | None => ""
  | Some data =>
      if decide (max_bytes < Z.of_nat (length data)) then
        decode (Bytes.upto (max_bytes `div` 2) data) ++ snip
        ++ decode (Bytes.from ((- max_bytes) `div` 2) data)
      else decode data
  end.

(** ** Scenarios ([BugScenario], lines 280-286) *)

Record BugScenario := {
  parent_commit : string;
  fix_commit : string;
  subject : string;
  files_changed : list string;
  human_diff : string
}.

(** ** The coach's answer ([PromptRefinerAgent.refine], lines 400-422) *)

(** What [json.loads] returns. *)
#[local] Unset Elimination Schemes.
Inductive json :=
| JNull
| JBool (b : bool)
| JNumber (repr : string)
| JString (s : string)
| JArray (elems : list json)
| JObject (members : list (string * json)).
#[local] Set Elimination Schemes.

Module Refiner.

(** Lines 405-410: keep the strings, stripped, non-empty and new. *)
Definition clean_array (arr : list json) : list string :=
  foldl (λ (cleaned : list string) (it : json),
           match it with
           | JString s =>
               let s := strip s in
               if decide (s ≠ "" ∧ s ∉ cleaned)
               then (cleaned ++ [s])%list else cleaned
           | _ => cleaned
           end) [] arr.

(** The [re.match] of line 417 on a line of [splitlines]: optional
    whitespace, a dash or star, at least one whitespace character, then
    the rest of the line as group 1. *)
Definition bullet_line (line : string) : option string :=
  match lstrip line with
  | String c (String c2 rest) =>
      if (ascii_eqb c "-"%char || ascii_eqb c "*"%char) && is_space c2
      then Some (lstrip rest) else None
  | _ => None
  end.

(** Lines 415-421. *)
Definition fallback_lines (lines : list string) : list string :=
  foldl (λ (guidelines : list string) (line : string),
           match bullet_line line with
           | Some body =>
               let g := strip body in
               if decide (g ≠ "" ∧ g ∉ guidelines)
               then (guidelines ++ [g])%list else guidelines
           | None => guidelines
           end) [] lines.

(** Lines 401-422, on the stripped completion [out]; [loads] is
    [json.loads], [None] when it raises. *)
Definition parse (loads : string → option json) (out : string)
  : list string :=
  match loads out with
  | Some (JArray arr) => take 4 (clean_array arr)
  | _ => take 4 (fallback_lines (splitlines out))
  end.

End Refiner.

(** The coach's answer as the specification words it: the candidates
    stripped, the blank ones dropped, each kept where it first occurs, and
    at most four of them. *)
Module RefinerSpec.


(** [xs] without the repetitions of what came earlier. *)
Fixpoint distinct (xs : list string) : list string :=
  match xs with
  | [] => []
  | x :: rest => x :: filter (λ y, y ≠ x) (distinct rest)
  end.

Definition guidelines (candidates : list string) : list string :=
  take 4 (distinct (filter (λ s, s ≠ "") (strip <$> candidates))).

End RefinerSpec.

(** ** Commit discovery ([detect_bug_fix_commits], lines 142-152) *)

Module Detect.

(** One line of the log output (lines 144-151): [None] when the unpacking
    of line 147 raises, [Some None] when the line yields no pair. *)
Definition parse_line (line : string)
  : option (option (string * string * string)) :=
  let line := strip line in
  if decide (line = "") then Some None
  else
    match take 3 (split2 "|"%char line ++ [""])%list with
    | [commit; subject; parents] =>
        let parent :=
          if decide (parents = "") then ""
          else (split_once " "%char parents).1 in
        if decide (parent = "") then Some None
        else Some (Some (parent, commit, subject))
    | _ => None
    end.

(** The loop of lines 143-151 over [out.splitlines()]. *)
Fixpoint parse_lines (lines : list string)
  : option (list (string * string * string)) :=
  match lines with
  | [] => Some []
  | line :: rest =>
      match parse_line line, parse_lines rest with
      | Some r, Some pairs =>
          Some (match r with Some p => p :: pairs | None => pairs end)
      | _, _ => None
      end
  end.

Definition pairs_of_log (out : string)
  : option (list (string * string * string)) :=
  parse_lines (splitlines out).

End Detect.
(** A commit as [git log] reports it. *)
Record commit := {
  c_hash : string;
  c_subject : string;
  c_parents : list string
}.

(** The line [git log --pretty=format:%H|%s|%P] (line 137) prints for a
    commit: the parents are separated by spaces. *)
Definition log_line (c : commit) : string :=
  c_hash c ++ "|" ++ c_subject c ++ "|" ++ join " " (c_parents c).

(** The output of that command for the commits it selects: one line per
    commit. *)
Definition git_log_output (commits : list commit) : string :=
  join nl (log_line <$> commits).

(** A commit identifier: not empty, no whitespace and no vertical bar. *)
Definition is_id (s : string) : Prop :=
  s ≠ ""
  ∧ all_chars (λ c, negb (is_space c) && negb (ascii_eqb c "|"%char)) s
    = true.

(** A commit whose log line parses as meant: identifiers for the hash and
    the parents, and a subject with no vertical bar and no line boundary. *)
Definition plain_commit (c : commit) : Prop :=
  is_id (c_hash c)
  ∧ all_chars (λ a, negb (is_linebreak a) && negb (ascii_eqb a "|"%char))
      (c_subject c) = true
  ∧ Forall is_id (c_parents c).

(** What a pair of the discovery is made of: a parent that is not empty and
    holds no space, a commit and a subject that hold no vertical bar. *)
Definition pair_shape (p : string * string * string) : Prop :=
  p.1.1 ≠ "" ∧ lacks " " p.1.1 = true
  ∧ lacks "|" p.1.2 = true ∧ lacks "|" p.2 = true.

(** The pairs meant by lines 142-152: first parent, commit and subject of
    every commit that has a parent. *)
Definition first_parent_pairs (commits : list commit)
  : list (string * string * string) :=
  omap (λ c, match c_parents c with
             | p :: _ => Some (p, c_hash c, c_subject c)
             | [] => None
             end) commits.

(** [build_scenarios] (lines 624-632) on the output of the log command;
    the two functions are [git_diff_name_only] and [git_diff_unified].
    [None] when [detect_bug_fix_commits] raises. *)
Definition build_scenarios (diff_name_only : string → string → list string)
  (diff_unified : string → string → string) (log_out : string)
  : option (list BugScenario) :=
  match Detect.pairs_of_log log_out with
  | Some pairs =>
      Some (map (λ '(parent, fix_, subj),
                   {| parent_commit := parent; fix_commit := fix_;
                      subject := subj;
                      files_changed := diff_name_only parent fix_;
                      human_diff := diff_unified parent fix_ |}) pairs)
  | None => None
  end.

(** ** The world the orchestrator acts on *)

(** What touched the working tree since it was last clean. [git apply]
    changes nothing when it fails; [git apply --reject] may leave the hunks
    it could apply even when it fails. *)
Inductive edit :=
| Applied (patch : string)
| PartlyApplied (patch : string).

Record worktree := { wt_head : string; wt_edits : list edit }.

(** The working tree just after a checkout of [commit]. *)
Definition clean_at (commit : string) : worktree :=
  {| wt_head := commit; wt_edits := [] |}.

(** What a completion is asked: the two prompt texts are functions of these
    fields ([build_system_prompt], [build_user_prompt], lines 367-399). *)
Inductive prompt :=
| FixerPrompt (guidelines : string) (scenario : BugScenario)
    (failing_raw : string) (code_context : list (string * string))
| RefinerPrompt (scenario : BugScenario) (last_agent_diff : string)
    (failing_raw : string) (current_guidelines : string).

(** The entries of [log_buf]; [Log.render] gives their text. *)
Inductive log_entry :=
| LogHeader (scenario : BugScenario)
| LogBaseline (raw : string)
| LogAttemptPatch (refined : bool) (attempt : Z) (proposed : string)
| LogAttemptOutput (refined : bool) (attempt : Z) (out2 : string)
| LogSuccess (attempt : Z) (added removed : nat)
| LogSuccessAfterRefinement (refine_round attempt : Z) (added removed : nat)
| LogNoGuidelines (refine_round : Z)
| LogNewGuidelines (refine_round : Z) (new_guides : list string)
| LogBaselineUnexpected
| LogFailed.

(** The calls made to the collaborators and to durable storage, in order. *)
Inductive event :=
| EvCleanWorktree
| EvCheckout (commit : string) (ok : bool)
| EvRunTests (tree : worktree) (passed : bool) (output : string)
| EvLoadContext (tree : worktree)
| EvPropose (p : prompt) (response : string)
| EvApproval (diff : string) (answer : string)
| EvApplyPatch (tree : worktree) (diff : string) (ok : bool)
| EvRefine (p : prompt) (response : string)
| EvSaveGuidelines (path : string) (content : string)
| EvWriteLog (path : string) (log : list log_entry).

(** [LLMClient] (lines 212-216): [complete], given the calls made so far. *)
Definition LLMClient : Type := list event → prompt → string.

Module ClaudeClient.

Definition placeholder : string :=
  "/* ERROR: anthropic not installed or API key missing. */".

(** [ClaudeClient.complete] (lines 231-247); [sdk] is [self._anthropic]. *)
Definition complete (sdk : option LLMClient) : LLMClient :=
  match sdk with
  | None => λ _ _, placeholder
  | Some create => create
  end.


End ClaudeClient.

(** The collaborators. *)
Record Env := {
  (** [git checkout -f commit] exits with 0 *)
  git_checkout : list event → string → bool;
  (** [git apply --whitespace=fix] exits with 0 *)
  git_apply : list event → string → bool;
  (** [git apply --reject --whitespace=fix] exits with 0 *)
  git_apply_reject : list event → string → bool;
  (** the test command: exit code 0, and its output *)
  test_command : list event → bool * string;
  (** the contents [load_code_context] reads for the changed files *)
  read_context : list event → list string → list (string * string);
  (** what the user types at the approval prompt *)
  input : list event → string;
  llm_bug : LLMClient;
  llm_ref : LLMClient;
  (** [json.loads]; [None] when it raises *)
  json_loads : string → option json
}.

Record world := {
  tree : worktree;
  files : gmap string string;
  items : list string;
  trace : list event
}.

Definition emit (e : event) (w : world) : world :=
  {| tree := tree w; files := files w; items := items w;
     trace := trace w ++ [e] |}.

Definition set_tree (t : worktree) (w : world) : world :=
  {| tree := t; files := files w; items := items w; trace := trace w |}.

Definition write_text (path content : string) (w : world) : world :=
  {| tree := tree w; files := <[path := content]> (files w);
     items := items w; trace := trace w |}.

Definition set_items (its : list string) (w : world) : world :=
  {| tree := tree w; files := files w; items := its; trace := trace w |}.

(** The local variables of one scenario in [loop_over_bug_scenarios]. *)
Record locals := {
  failing_info : string;
  code_ctx : list (string * string);
  log_buf : list log_entry;
  success : bool;
  refine_success : bool;
  last_agent_diff : string
}.

Definition log (e : log_entry) (l : locals) : locals :=
  {| failing_info := failing_info l; code_ctx := code_ctx l;
     log_buf := log_buf l ++ [e]; success := success l;
     refine_success := refine_success l;
     last_agent_diff := last_agent_diff l |}.

Definition set_failing_info (raw : string) (l : locals) : locals :=
  {| failing_info := raw; code_ctx := code_ctx l; log_buf := log_buf l;
     success := success l; refine_success := refine_success l;
     last_agent_diff := last_agent_diff l |}.

Definition set_code_ctx (c : list (string * string)) (l : locals) : locals :=
  {| failing_info := failing_info l; code_ctx := c; log_buf := log_buf l;
     success := success l; refine_success := refine_success l;
     last_agent_diff := last_agent_diff l |}.

Definition set_success (b : bool) (l : locals) : locals :=
  {| failing_info := failing_info l; code_ctx := code_ctx l;
     log_buf := log_buf l; success := b; refine_success := refine_success l;
     last_agent_diff := last_agent_diff l |}.

Definition set_refine_success (b : bool) (l : locals) : locals :=
  {| failing_info := failing_info l; code_ctx := code_ctx l;
     log_buf := log_buf l; success := success l; refine_success := b;
     last_agent_diff := last_agent_diff l |}.

Definition set_last_agent_diff (d : string) (l : locals) : locals :=
  {| failing_info := failing_info l; code_ctx := code_ctx l;
     log_buf := log_buf l; success := success l;
     refine_success := refine_success l; last_agent_diff := d |}.

(** ** The text of the log (lines 469-476, 500, 532-537, 553, 563-564, 576,
       604-609, 616) *)

Module Log.

Definition fence (body : string) : string :=
  nl ++ nl ++ "```" ++ nl ++ body ++ nl ++ "```" ++ nl.

Definition slice (n : Z) (s : string) : string := slice_to (Z.to_nat n) s.

(** [scenario_log_header]: the dedented text. *)
Definition header (sc : BugScenario) : string :=
  "# Bug Scenario: " ++ subject sc ++ nl ++
  "- Parent (buggy): `" ++ parent_commit sc ++ "`" ++ nl ++
  "- Fix commit (human): `" ++ fix_commit sc ++ "`" ++ nl ++
  "- Files changed by human: " ++
  (match files_changed sc with
   | [] => "(unknown)"
   | fs => join ", " fs
   end) ++ nl ++ "---" ++ nl.

Definition diff_size (added removed : nat) : string :=
  "Diff size: +" ++ pretty added ++ "/-" ++ pretty removed ++ nl.

Definition render (e : log_entry) : string :=
  match e with
  | LogHeader sc => header sc
  | LogBaseline raw =>
      "## Baseline failing test output" ++ fence (slice 8000 raw)
  | LogAttemptPatch refined attempt proposed =>
      (if refined then "#### Post-refine attempt " else "### Attempt ")
      ++ pretty attempt ++ " proposed patch" ++ fence (slice 18000 proposed)
  | LogAttemptOutput refined attempt out2 =>
      (if refined then "#### Post-refine attempt " else "### Attempt ")
      ++ pretty attempt ++ " test output" ++ fence (slice 8000 out2)
  | LogSuccess attempt added removed =>
      "**SUCCESS** on attempt " ++ pretty attempt ++ ". "
      ++ diff_size added removed
  | LogSuccessAfterRefinement r attempt added removed =>
      "**SUCCESS after refinement " ++ pretty r ++ " attempt "
      ++ pretty attempt ++ "**. " ++ diff_size added removed
  | LogNoGuidelines r =>
      "### Refinement " ++ pretty r ++ nl
      ++ "No usable guidelines returned." ++ nl
  | LogNewGuidelines r new_guides =>
      "### Refinement " ++ pretty r ++ " new guidelines" ++ nl
      ++ concat (Guidelines.bullet <$> new_guides) ++ nl
  | LogBaselineUnexpected =>
      "Baseline unexpectedly passes after reset; skipping attempts." ++ nl
  | LogFailed => "**FAILED** to fix after attempts and refinements." ++ nl
  end.

(** The content [write_log] receives: [(newline).join(log_buf)]. *)
Definition text (log_buf : list log_entry) : string :=
  join nl (render <$> log_buf).

(** Is the entry one of the two success markers? *)
Definition is_success (e : log_entry) : bool :=
  match e with
  | LogSuccess _ _ _ | LogSuccessAfterRefinement _ _ _ _ => true
  | _ => false
  end.

End Log.

(** ** The orchestrator ([Orchestrator], lines 428-618) *)

Section Orchestrator.

Variable cfg : Config.
Variable E : Env.

(** [ensure_clean_worktree] (lines 103-106): [git reset --hard] and
    [git clean -fd] discard every edit and keep the commit. *)
Definition ensure_clean_worktree (w : world) : world :=
  emit EvCleanWorktree (set_tree (clean_at (wt_head (tree w))) w).

(** [git_checkout_detached] (lines 108-114); [false] stands for the
    [RuntimeError], which leaves the commit as it was. *)
Definition git_checkout_detached (commit : string) (w : world)
  : bool * world :=
  let w := ensure_clean_worktree w in
  let ok := git_checkout E (trace w) commit in
  let w := emit (EvCheckout commit ok) w in
  if ok then (true, set_tree (clean_at commit) w) else (false, w).

Definition touch (e : edit) (t : worktree) : worktree :=
  {| wt_head := wt_head t; wt_edits := wt_edits t ++ [e] |}.

(** [apply_unified_diff_with_git] (lines 189-206). *)
Definition apply_unified_diff_with_git (diff_text : string) (w : world)
  : bool * world :=
  let t := tree w in
  if git_apply E (trace w) diff_text then
    (true, emit (EvApplyPatch t diff_text true)
             (set_tree (touch (Applied diff_text) t) w))
  else if git_apply_reject E (trace w) diff_text then
    (true, emit (EvApplyPatch t diff_text true)
             (set_tree (touch (Applied diff_text) t) w))
  else
    (false, emit (EvApplyPatch t diff_text false)
              (set_tree (touch (PartlyApplied diff_text) t) w)).

(** [run_tests] (lines 448-452). *)
Definition run_tests (w : world) : bool * string * world :=
  let '(passed, output) := test_command E (trace w) in
  (passed, output, emit (EvRunTests (tree w) passed output) w).

(** [parse_jest_like_failures] (lines 166-181): the other two entries of
    the dictionary are computed from ["raw"] and only enter the prompt. *)
Definition parse_jest_like_failures (output : string) : string := output.

(** [load_code_context] (lines 454-463). *)
Definition load_code_context (sc : BugScenario) (w : world)
  : list (string * string) * world :=
  (read_context E (trace w) (files_changed sc),
   emit (EvLoadContext (tree w)) w).

(** [BugFixerAgent.propose_patch] (lines 349-353). *)
Definition propose_patch (sc : BugScenario) (failing : string)
  (ctx : list (string * string)) (w : world) : string * world :=
  let p := FixerPrompt (Guidelines.as_bullets (items w)) sc failing ctx in
  let r := llm_bug E (trace w) p in
  (r, emit (EvPropose p r) w).

(** [answer.strip().lower() == "y"] *)
Definition says_yes (answer : string) : bool :=
  let a := strip answer in bool_decide (a = "y" ∨ a = "Y").

(** [approval] (lines 440-446). *)
Definition approval (diff : string) (w : world) : bool * world :=
  if negb (require_approval cfg) then (true, w)
  else
    let answer := input E (trace w) in
    (says_yes answer, emit (EvApproval diff answer) w).

(** [PromptRefinerAgent.refine] (lines 365-422). *)
Definition refine (sc : BugScenario) (last_diff failing : string)
  (current_guidelines : string) (w : world) : list string * world :=
  let p := RefinerPrompt sc last_diff failing current_guidelines in
  let out := llm_ref E (trace w) p in
  (Refiner.parse (json_loads E) (strip out), emit (EvRefine p out) w).

(** [Guidelines.save] (lines 265-269). *)
Definition save_guidelines (w : world) : world :=
  let content := Guidelines.save_text (items w) in
  emit (EvSaveGuidelines (guidelines_file cfg) content)
       (write_text (guidelines_file cfg) content w).

(** The merge of lines 556-562. *)
Definition merge_guidelines (new_guides : list string) (w : world) : world :=
  save_guidelines (set_items (Guidelines.merged (items w) new_guides) w).

(** The name of line 466. *)
Definition log_name (sc : BugScenario) : string :=
  slice_to 10 (parent_commit sc) ++ "_" ++ slice_to 10 (fix_commit sc)
  ++ ".md".

Definition log_path (sc : BugScenario) : string :=
  logs_dir cfg ++ "/" ++ log_name sc.

(** [write_log] (lines 465-467), called with the joined [log_buf]. *)
Definition write_log (sc : BugScenario) (buf : list log_entry) (w : world)
  : world :=
  emit (EvWriteLog (log_path sc) buf)
       (write_text (log_path sc) (Log.text buf) w).

(** One pass through the body of an attempt loop: lines 508-541 when
    [round] is [None], lines 585-610 in refinement round [r] when it is
    [Some r]. The two bodies differ in their messages only. The boolean
    is [true] when the body leaves the loop with [break]. *)
Definition attempt_body (round : option Z) (sc : BugScenario) (attempt : Z)
  (st : world * locals) : world * locals * bool :=
  let '(w, l) := st in
  let '(response, w) := propose_patch sc (failing_info l) (code_ctx l) w in
  let proposed := strip response in
  let l := set_last_agent_diff proposed l in
  if negb (looks_like_diff proposed) then (w, l, false)
  else
    let '(approved, w) := approval proposed w in
    if negb approved then (w, l, false)
    else
      let w := ensure_clean_worktree w in
      let '(ok, w) := apply_unified_diff_with_git proposed w in
      if negb ok then (w, l, false)
      else
        let '(passed2, out2, w) := run_tests w in
        let refined := bool_decide (is_Some round) in
        let l := log (LogAttemptPatch refined attempt proposed) l in
        let l := log (LogAttemptOutput refined attempt out2) l in
        if passed2 then
          let l := set_success true l in
          let '(add, rm) := count_diff_lines proposed in
          let l :=
            log (match round with
                 | None => LogSuccess attempt add rm
                 | Some r => LogSuccessAfterRefinement r attempt add rm
                 end) l in
          (w, l, true)
        else
          let l :=
            match round with
            | None => set_failing_info (parse_jest_like_failures out2) l
            | Some _ => l
            end in
          (w, l, false).

(** [for attempt in range(...)] over [attempt_body]. *)
Fixpoint attempt_loop (round : option Z) (sc : BugScenario)
  (attempts : list Z) (st : world * locals) : world * locals :=
  match attempts with
  | [] => st
  | attempt :: rest =>
      let '(w, l, brk) := attempt_body round sc attempt st in
      if brk then (w, l) else attempt_loop round sc rest (w, l)
  end.

(** One refinement round (lines 550-613). *)
Definition refine_body (sc : BugScenario) (refine_round : Z)
  (st : world * locals) : world * locals * bool :=
  let '(w, l) := st in
  let '(new_guides, w) :=
    refine sc (last_agent_diff l) (failing_info l)
           (Guidelines.as_bullets (items w)) w in
  let '(w, l) :=
    match new_guides with
    | [] => (w, log (LogNoGuidelines refine_round) l)
    | _ => (merge_guidelines new_guides w,
            log (LogNewGuidelines refine_round new_guides) l)
    end in
  let '(ok, w) := git_checkout_detached (parent_commit sc) w in
  if negb ok then (w, l, true)
  else
    let '(passed, out, w) := run_tests w in
    if passed then (w, log LogBaselineUnexpected l, true)
    else
      let l := set_failing_info (parse_jest_like_failures out) l in
      let '(ctx, w) := load_code_context sc w in
      let l := set_code_ctx ctx l in
      let l := set_last_agent_diff "" l in
      let l := set_success false l in
      let '(w, l) :=
        attempt_loop (Some refine_round) sc
          (range 1 (max_fix_attempts_per_bug cfg + 1)) (w, l) in
      if success l then (w, set_refine_success true l, true)
      else (w, l, false).

(** [for refine_round in range(...)] over [refine_body]. *)
Fixpoint refine_loop (sc : BugScenario) (rounds : list Z)
  (st : world * locals) : world * locals :=
  match rounds with
  | [] => st
  | r :: rest =>
      let '(w, l, brk) := refine_body sc r st in
      if brk then (w, l) else refine_loop sc rest (w, l)
  end.

(** The body of the loop over scenarios (lines 482-618). *)
Definition process_scenario (sc : BugScenario) (w : world) : world :=
  let '(ok, w) := git_checkout_detached (parent_commit sc) w in
  if negb ok then w
  else
    let '(passed, out, w) := run_tests w in
    if passed then w
    else
      let failing := parse_jest_like_failures out in
      let '(ctx, w) := load_code_context sc w in
      let l :=
        {| failing_info := failing; code_ctx := ctx;
           log_buf := [LogHeader sc; LogBaseline failing];
           success := false; refine_success := false;
           last_agent_diff := "" |} in
      let '(w, l) :=
        attempt_loop None sc
          (range 1 (max_fix_attempts_per_bug cfg + 1)) (w, l) in
      if success l then write_log sc (log_buf l) w
      else
        let '(w, l) :=
          refine_loop sc
            (range 1 (max_refine_iterations_per_bug cfg + 1)) (w, l) in
        let l :=
          if negb (success l || refine_success l) then log LogFailed l
          else l in
        write_log sc (log_buf l) w.

(** [loop_over_bug_scenarios] (lines 478-618). *)
Definition loop_over_bug_scenarios (scenarios : list BugScenario)
  (w : world) : world :=
  foldl (λ w sc, process_scenario sc w) w scenarios.

(** A sequence of merges, one per batch of coach output. *)
Definition merge_all (batches : list (list string)) (w : world) : world :=
  foldl (λ w batch, merge_guidelines batch w) w batches.

(** [Orchestrator.__init__] (lines 433-434): the ledger is loaded from its
    file. *)
Definition load_guidelines (w : world) : world :=
  set_items (Guidelines.load (files w !! guidelines_file cfg) []) w.

(** The calls one scenario adds to the history. *)
Definition scenario_events (sc : BugScenario) (w : world) : list event :=
  drop (length (trace w)) (trace (process_scenario sc w)).

End Orchestrator.

Arguments scenario_events cfg E sc w : simpl never.
Arguments range : simpl never.
Arguments strip : simpl never.
Arguments looks_like_diff : simpl never.
Arguments count_diff_lines : simpl never.
Arguments Guidelines.merged : simpl never.
Arguments Guidelines.save_text : simpl never.
Arguments Guidelines.as_bullets : simpl never.
Arguments Refiner.parse : simpl never.
Arguments Log.text : simpl never.

Local Open Scope list_scope.

(** ** Properties of call histories *)

Definition is_propose (e : event) : bool :=
  match e with EvPropose _ _ => true | _ => false end.

Definition is_refine (e : event) : bool :=
  match e with EvRefine _ _ => true | _ => false end.

Definition is_llm_call (e : event) : bool := is_propose e || is_refine e.

Definition is_write_log (e : event) : bool :=
  match e with EvWriteLog _ _ => true | _ => false end.

Definition test_passed (e : event) : bool :=
  match e with EvRunTests _ passed _ => passed | _ => false end.

Definition checkout_failed (e : event) : bool :=
  match e with EvCheckout _ ok => negb ok | _ => false end.

(** The calls an attempt loop can make. *)
Definition is_attempt_event (e : event) : bool :=
  match e with
  | EvPropose _ _ | EvApproval _ _ | EvCleanWorktree | EvApplyPatch _ _ _
  | EvRunTests _ _ _ => true
  | _ => false
  end.

(** No test run passes and no checkout fails. *)
Definition calm (e : event) : Prop :=
  test_passed e = false ∧ checkout_failed e = false.

(** How many calls of [evs] satisfy [f]. *)
Fixpoint count_of (f : event → bool) (evs : list event) : nat :=
  match evs with
  | [] => 0
  | e :: rest => (if f e then 1 else 0) + count_of f rest
  end.

Definition count_propose : list event → nat := count_of is_propose.

(** What a call sees of the working tree, given the call just before it:
    a patch is applied to the clean tree of [parent] right after a reset;
    tests run on that clean tree or on it with the one patch that was just
    applied; the code context is read from the clean tree. *)
Definition observes_baseline (parent : string) (prev : option event)
  (e : event) : Prop :=
  match e with
  | EvApplyPatch t _ _ => prev = Some EvCleanWorktree ∧ t = clean_at parent
  | EvRunTests t _ _ =>
      t = clean_at parent ∨
      ∃ d, prev = Some (EvApplyPatch (clean_at parent) d true)
           ∧ t = {| wt_head := parent; wt_edits := [Applied d] |}
  | EvLoadContext t => t = clean_at parent
  | _ => True
  end.

(** A passing test run does not come right after a successful checkout. *)
Definition no_pass_after_checkout (prev : option event) (e : event) : Prop :=
  match prev, e with
  | Some (EvCheckout _ true), EvRunTests _ true _ => False
  | _, _ => True
  end.

(** [R] relates every call of [evs] to the call before it; [prev] is the
    call before the first one. *)
Fixpoint chain (R : option event → event → Prop) (prev : option event)
  (evs : list event) : Prop :=
  match evs with
  | [] => True
  | e :: rest => R prev e ∧ chain R (Some e) rest
  end.

(** [evs] is a chain whatever came before it. *)
Definition steady (R : option event → event → Prop) (evs : list event)
  : Prop :=
  ∀ prev, chain R prev evs.

Fixpoint last_or (prev : option event) (evs : list event) : option event :=
  match evs with
  | [] => prev
  | e :: rest => last_or (Some e) rest
  end.


(** The log holds no success marker. *)
Definition no_marker (buf : list log_entry) : Prop :=
  Forall (λ e, Log.is_success e = false) buf.

(** The calls of an approval gate: none when approval is not required. *)
Inductive approval_events (proposed : string) : list event → Prop :=
| approval_skipped : approval_events proposed []
| approval_asked answer :
    approval_events proposed [EvApproval proposed answer].

(** The locals after the test run of an applied patch (lines 532-541 and
    604-610). *)
Definition after_tests (round : option Z) (attempt : Z)
  (proposed out2 : string) (passed2 : bool) (l : locals) : locals :=
  let refined := bool_decide (is_Some round) in
  let l := log (LogAttemptOutput refined attempt out2)
               (log (LogAttemptPatch refined attempt proposed) l) in
  if passed2 then
    log (match round with
         | None =>
             LogSuccess attempt (count_diff_lines proposed).1
               (count_diff_lines proposed).2
         | Some r =>
             LogSuccessAfterRefinement r attempt
               (count_diff_lines proposed).1 (count_diff_lines proposed).2
         end) (set_success true l)
  else match round with
       | None => set_failing_info (parse_jest_like_failures out2) l
       | Some _ => l
       end.

(** The three ways one pass through [attempt_body] can go after the
    proposer's call: the calls it adds, the locals it leaves and whether
    it leaves the loop. *)
Inductive attempt_case (round : option Z) (attempt : Z) (head : string)
  (proposed : string) (l : locals) : list event → locals → bool → Prop :=
| attempt_soft appr :
    approval_events proposed appr →
    attempt_case round attempt head proposed l appr
      (set_last_agent_diff proposed l) false
| attempt_not_applied appr :
    approval_events proposed appr →
    attempt_case round attempt head proposed l
      (appr ++ [EvCleanWorktree; EvApplyPatch (clean_at head) proposed false])
      (set_last_agent_diff proposed l) false
| attempt_tested appr passed2 out2 :
    approval_events proposed appr →
    attempt_case round attempt head proposed l
      (appr ++ [EvCleanWorktree; EvApplyPatch (clean_at head) proposed true;
                EvRunTests (touch (Applied proposed) (clean_at head))
                  passed2 out2])
      (after_tests round attempt proposed out2 passed2
         (set_last_agent_diff proposed l)) passed2.

(** What a stretch of [n] attempts on the tree of [head] does to the
    history and to the locals. *)
Record attempts_summary (head : string) (n : nat) (l l' : locals)
  (evs : list event) : Prop := {
  as_baseline : steady (observes_baseline head) evs;
  as_no_anomaly : steady no_pass_after_checkout evs;
  as_events : Forall (λ e, is_attempt_event e = true) evs;
  as_count :
    Forall calm evs → count_propose evs = n ∧ success l' = success l;
  as_success : success l' = success l ∨ success l' = true;
  as_log : success l' = false → no_marker (log_buf l) → no_marker (log_buf l');
  as_refine_success : refine_success l' = refine_success l
}.

(** Nothing has succeeded so far and the log says so. *)
Definition pending (l : locals) : Prop :=
  success l = false ∧ refine_success l = false ∧ no_marker (log_buf l).

(** The stretch ends with a checkout followed by a passing baseline run,
    and that is the only such pair in it. *)
Definition anomaly (l' : locals) (evs : list event) : Prop :=
  ∃ pre c t out lg,
    evs = pre ++ [EvCheckout c true; EvRunTests t true out]
    ∧ steady no_pass_after_checkout (pre ++ [EvCheckout c true])
    ∧ pending l' ∧ log_buf l' = lg ++ [LogBaselineUnexpected].

(** What a stretch of [n] refinement rounds for the scenario of [parent]
    does to the history. *)
Record rounds_summary (parent : string) (per_round n : nat) (l' : locals)
  (evs : list event) : Prop := {
  rs_baseline : steady (observes_baseline parent) evs;
  rs_no_write : Forall (λ e, is_write_log e = false) evs;
  rs_count : Forall calm evs → count_propose evs = (n * per_round)%nat;
  rs_outcome : steady no_pass_after_checkout evs ∨ anomaly l' evs
}.

(** The log written when the refinement loop is over (lines 615-618). *)
Definition final_log (l : locals) : list log_entry :=
  if negb (success l || refine_success l) then log_buf l ++ [LogFailed]
  else log_buf l.

(** The calls up to the first attempt of a scenario that is worked on. *)
Definition entry_events (sc : BugScenario) (out : string) : list event :=
  [EvCleanWorktree; EvCheckout (parent_commit sc) true;
   EvRunTests (clean_at (parent_commit sc)) false out;
   EvLoadContext (clean_at (parent_commit sc))].

Section Run.

Variable cfg : Config.

(** The four ways [process_scenario] can go, with the calls each adds. *)
Inductive scenario_run (sc : BugScenario) (w w' : world)
  : list event → Prop :=
| run_checkout_failed :
    items w' = items w → files w' = files w →
    scenario_run sc w w'
      [EvCleanWorktree; EvCheckout (parent_commit sc) false]
| run_already_passing out :
    items w' = items w → files w' = files w →
    scenario_run sc w w'
      [EvCleanWorktree; EvCheckout (parent_commit sc) true;
       EvRunTests (clean_at (parent_commit sc)) true out]
| run_fixed out l0 l1 ea :
    log_buf l0 = [LogHeader sc; LogBaseline out] →
    success l0 = false → refine_success l0 = false →
    attempts_summary (parent_commit sc)
      (Z.to_nat (max_fix_attempts_per_bug cfg)) l0 l1 ea →
    success l1 = true →
    files w' !! log_path cfg sc = Some (Log.text (log_buf l1)) →
    scenario_run sc w w'
      (entry_events sc out ++ ea ++ [EvWriteLog (log_path cfg sc) (log_buf l1)])
| run_refined out l0 l1 l2 ea er :
    log_buf l0 = [LogHeader sc; LogBaseline out] →
    success l0 = false → refine_success l0 = false →
    attempts_summary (parent_commit sc)
      (Z.to_nat (max_fix_attempts_per_bug cfg)) l0 l1 ea →
    success l1 = false →
    rounds_summary (parent_commit sc)
      (Z.to_nat (max_fix_attempts_per_bug cfg))
      (Z.to_nat (max_refine_iterations_per_bug cfg)) l2 er →
    files w' !! log_path cfg sc = Some (Log.text (final_log l2)) →
    scenario_run sc w w'
      (entry_events sc out ++ ea ++ er
       ++ [EvWriteLog (log_path cfg sc) (final_log l2)]).

End Run.


(** ** The course of a scenario, stage by stage *)


Definition is_save (e : event) : bool :=
  match e with EvSaveGuidelines _ _ => true | _ => false end.

Definition is_test (e : event) : bool :=
  match e with EvRunTests _ _ _ => true | _ => false end.

Definition is_approval (e : event) : bool :=
  match e with EvApproval _ _ => true | _ => false end.

(** A test run that passes on a tree that holds a patch. *)
Definition patched_pass (e : event) : bool :=
  match e with
  | EvRunTests t true _ => bool_decide (wt_edits t ≠ [])
  | _ => false
  end.

(** The calls made outside the attempt loops: no proposer call, no
    approval prompt and no patch; tests run and context is read on a tree
    without edits. *)
Definition is_frame_event (e : event) : bool :=
  match e with
  | EvPropose _ _ | EvApproval _ _ | EvApplyPatch _ _ _ => false
  | EvRunTests t _ _ | EvLoadContext t => bool_decide (wt_edits t = [])
  | _ => true
  end.

(** Every patch is applied right after a reset that follows the user's
    consent to that very patch. *)
Definition gated (evs : list event) : Prop :=
  ∀ pre t d ok post,
    evs = pre ++ EvApplyPatch t d ok :: post →
    ∃ pre' answer,
      pre = pre' ++ [EvApproval d answer; EvCleanWorktree]
      ∧ says_yes answer = true.

(** A patch is applied right after a reset, to a tree without edits; tests
    run on such a tree or on it with the one patch that was just applied. *)
Definition guarded (prev : option event) (e : event) : Prop :=
  match e with
  | EvApplyPatch t _ _ => prev = Some EvCleanWorktree ∧ wt_edits t = []
  | EvRunTests t _ _ =>
      wt_edits t = [] ∨
      ∃ t0 d, prev = Some (EvApplyPatch t0 d true) ∧ wt_edits t0 = []
              ∧ wt_edits t = [Applied d]
  | _ => True
  end.

(** What the tail of a refinement round does once the coach's answer is
    merged: the calls after the reset, the locals and whether the round
    leaves the loop. [l1] holds the locals after the merge. *)
Inductive round_tail (cfg : Config) (E : Env) (sc : BugScenario) (r : Z)
  (l1 : locals) (w' : world) : list event → locals → bool → Prop :=
| tail_checkout_failed :
    round_tail cfg E sc r l1 w' [EvCheckout (parent_commit sc) false] l1 true
| tail_baseline_passes out :
    round_tail cfg E sc r l1 w'
      [EvCheckout (parent_commit sc) true;
       EvRunTests (clean_at (parent_commit sc)) true out]
      (log LogBaselineUnexpected l1) true
| tail_attempts out w2 l2 l3 ea :
    attempt_loop cfg E (Some r) sc
      (range 1 (max_fix_attempts_per_bug cfg + 1)) (w2, l2) = (w', l3) →
    trace w' = trace w2 ++ ea →
    success l2 = false → refine_success l2 = refine_success l1 →
    log_buf l2 = log_buf l1 →
    round_tail cfg E sc r l1 w'
      ([EvCheckout (parent_commit sc) true;
        EvRunTests (clean_at (parent_commit sc)) false out;
        EvLoadContext (clean_at (parent_commit sc))] ++ ea)
      (if success l3 then set_refine_success true l3 else l3) (success l3).

(** The four ways [process_scenario] can go, with the loops it runs. *)
Inductive scenario_shape (cfg : Config) (E : Env) (sc : BugScenario)
  (w w' : world) : list event → Prop :=
| shape_checkout_failed :
    items w' = items w → files w' = files w →
    scenario_shape cfg E sc w w'
      [EvCleanWorktree; EvCheckout (parent_commit sc) false]
| shape_already_passing out :
    items w' = items w → files w' = files w →
    scenario_shape cfg E sc w w'
      [EvCleanWorktree; EvCheckout (parent_commit sc) true;
       EvRunTests (clean_at (parent_commit sc)) true out]
| shape_fixed out w1 l1 w2 l2 ea :
    attempt_loop cfg E None sc
      (range 1 (max_fix_attempts_per_bug cfg + 1)) (w1, l1) = (w2, l2) →
    trace w2 = trace w1 ++ ea →
    items w1 = items w → files w1 = files w →
    log_buf l1 = [LogHeader sc; LogBaseline out] →
    success l1 = false → refine_success l1 = false →
    success l2 = true →
    w' = write_log cfg sc (log_buf l2) w2 →
    scenario_shape cfg E sc w w'
      (entry_events sc out ++ ea
       ++ [EvWriteLog (log_path cfg sc) (log_buf l2)])
| shape_refined out w1 l1 w2 l2 w3 l3 ea er :
    attempt_loop cfg E None sc
      (range 1 (max_fix_attempts_per_bug cfg + 1)) (w1, l1) = (w2, l2) →
    trace w2 = trace w1 ++ ea →
    items w1 = items w → files w1 = files w →
    log_buf l1 = [LogHeader sc; LogBaseline out] →
    success l1 = false → refine_success l1 = false →
    success l2 = false →
    refine_loop cfg E sc
      (range 1 (max_refine_iterations_per_bug cfg + 1)) (w2, l2) = (w3, l3) →
    trace w3 = trace w2 ++ er →
    w' = write_log cfg sc (final_log l3) w3 →
    scenario_shape cfg E sc w w'
      (entry_events sc out ++ ea ++ er
       ++ [EvWriteLog (log_path cfg sc) (final_log l3)]).

(** What a stretch of [n] attempts does to the counts of calls, to the log
    and to the outcome. *)
Record attempts_facts (n : nat) (l l' : locals) (evs : list event)
  : Prop := {
  af_propose : (count_of is_propose evs ≤ n)%nat;
  af_tests : (count_of is_test evs ≤ n)%nat;
  af_events : Forall (λ e, is_attempt_event e = true) evs;
  af_log : log_buf l `prefix_of` log_buf l';
  af_refine_success : refine_success l' = refine_success l;
  af_outcome :
    success l = false →
    (success l' = false ∧ count_of patched_pass evs = 0%nat)
    ∨ (success l' = true
       ∧ ∃ pre t out m,
           evs = pre ++ [EvRunTests t true out]
           ∧ patched_pass (EvRunTests t true out) = true
           ∧ count_of patched_pass pre = 0%nat
           ∧ last (log_buf l') = Some m ∧ Log.is_success m = true)
}.

(** What a stretch of [n] refinement rounds of [per_round] attempts each
    does to the counts of calls, to the ledger and its file [g], to the
    log and to the outcome. *)
Record rounds_facts (g : string) (per_round n : nat) (w w' : world)
  (l l' : locals) (evs : list event) : Prop := {
  rf_propose : (count_of is_propose evs ≤ n * per_round)%nat;
  rf_refine : (count_of is_refine evs ≤ n)%nat;
  rf_tests : (count_of is_test evs ≤ n * (1 + per_round))%nat;
  rf_saves : (count_of is_save evs ≤ count_of is_refine evs)%nat;
  rf_writes : count_of is_write_log evs = 0%nat;
  rf_prefix : items w `prefix_of` items w';
  rf_nodup : NoDup (items w) → NoDup (items w');
  rf_growth :
    (length (items w') ≤ length (items w) + 4 * count_of is_refine evs)%nat;
  rf_untouched :
    count_of is_save evs = 0%nat → items w' = items w ∧ files w' = files w;
  rf_saved :
    count_of is_save evs ≠ 0%nat →
    files w' = <[g := Guidelines.save_text (items w')]> (files w);
  rf_log : log_buf l `prefix_of` log_buf l';
  rf_outcome :
    success l = false → refine_success l = false →
    (success l' = false ∧ refine_success l' = false
     ∧ count_of patched_pass evs = 0%nat)
    ∨ (success l' = true
       ∧ ∃ pre t out m,
           evs = pre ++ [EvRunTests t true out]
           ∧ patched_pass (EvRunTests t true out) = true
           ∧ count_of patched_pass pre = 0%nat
           ∧ last (log_buf l') = Some m ∧ Log.is_success m = true)
}.

(** The call applies no patch and, when it runs the tests, sees a tree
    that holds no edit. *)
Definition unpatched (e : event) : Prop :=
  match e with
  | EvApplyPatch _ _ _ => False
  | EvRunTests t _ _ => wt_edits t = []
  | _ => True
  end.

(** The call is no approval prompt that the user answered with y. *)
Definition declined (e : event) : bool :=
  match e with
  | EvApproval _ answer => negb (says_yes answer)
  | _ => true
  end.

(** The calls a whole run adds to the history. *)
Definition run_events (cfg : Config) (E : Env) (scenarios : list BugScenario)
  (w : world) : list event :=
  drop (length (trace w)) (trace (loop_over_bug_scenarios cfg E scenarios w)).

(** ** Concrete runs *)

Module Demo.

Local Open Scope string_scope.

Definition cfg : Config :=
  {| max_fix_attempts_per_bug := 2; max_refine_iterations_per_bug := 1;
     logs_dir := "agent_logs"; guidelines_file := "prompt_guidelines.md";
     require_approval := false |}.

Definition sc : BugScenario :=
  {| parent_commit := "1111111111aaaaaa"; fix_commit := "2222222222bbbbbb";
     subject := "fix: null check"; files_changed := ["src/a.ts"];
     human_diff := "" |}.

Definition w0 : world :=
  {| tree := clean_at "main"; files := ∅; items := []; trace := [] |}.

Definition good_diff : string :=
  "--- a/src/a.ts" ++ nl ++ "+++ b/src/a.ts" ++ nl ++ "@@ -1 +1 @@" ++ nl
  ++ "-x" ++ nl ++ "+y".

Definition stale_diff : string :=
  "--- a/src/gone.ts" ++ nl ++ "+++ b/src/gone.ts" ++ nl ++ "@@ -1 +1 @@"
  ++ nl ++ "-x" ++ nl ++ "+y".

(** The run of the specification's example: a response that is no diff,
    then a diff that does not apply, then one guideline from the coach and
    a diff that applies and passes. *)
Definition env_refined : Env :=
  {| git_checkout := λ _ _, true;
     git_apply := λ _ d, bool_decide (d = good_diff);
     git_apply_reject := λ _ _, false;
     test_command := λ h,
       match last h with
       | Some (EvApplyPatch _ _ true) => (true, "PASS")
       | _ => (false, "FAIL src/a.test.ts")
       end;
     read_context := λ _ fs, (λ f, (f, "code")) <$> fs;
     input := λ _, "y";
     llm_bug := λ h _,
       match count_propose h with
       | 0%nat => "Sorry, no idea."
       | 1%nat => stale_diff
       | _ => good_diff
       end;
     llm_ref := λ _ _, "- Check for null before dereferencing";
     json_loads := λ _, None |}.

(** Every patch applies and the tests never pass. *)
Definition env_exhausted : Env :=
  {| git_checkout := λ _ _, true;
     git_apply := λ _ _, true;
     git_apply_reject := λ _ _, false;
     test_command := λ _, (false, "FAIL src/a.test.ts");
     read_context := λ _ _, [];
     input := λ _, "";
     llm_bug := λ _ _, good_diff;
     llm_ref := λ _ _, "";
     json_loads := λ _, None |}.

(** No completion service; the baseline passes once the coach was asked. *)
Definition env_anomaly : Env :=
  {| git_checkout := λ _ _, true;
     git_apply := λ _ _, true;
     git_apply_reject := λ _ _, false;
     test_command := λ h,
       if existsb is_refine h then (true, "PASS") else (false, "FAIL");
     read_context := λ _ _, [];
     input := λ _, "";
     llm_bug := ClaudeClient.complete None;
     llm_ref := ClaudeClient.complete None;
     json_loads := λ _, None |}.


(** The locals of a scenario whose baseline run has just failed. *)
Definition l0 : locals :=
  {| failing_info := "FAIL"; code_ctx := [];
     log_buf := [LogHeader sc; LogBaseline "FAIL"];
     success := false; refine_success := false; last_agent_diff := "" |}.

Definition dquote : string := String "034"%char "".

(** A guideline of two lines, and the JSON text a coach writes for it. *)
Definition two_line_guideline : string :=
  "Check inputs" ++ nl ++ "and outputs".

Definition coach_json : string :=
  "[" ++ dquote ++ "Check inputs\nand outputs" ++ dquote ++ "]".

(** The coach answers with [coach_json], which [json.loads] reads as an
    array of one string; nothing else succeeds. *)
Definition env_json : Env :=
  {| git_checkout := λ _ _, true;
     git_apply := λ _ _, true;
     git_apply_reject := λ _ _, false;
     test_command := λ _, (false, "FAIL src/a.test.ts");
     read_context := λ _ _, [];
     input := λ _, "";
     llm_bug := λ _ _, good_diff;
     llm_ref := λ _ _, coach_json;
     json_loads := λ s,
       if decide (s = coach_json)
       then Some (JArray [JString two_line_guideline]) else None |}.

(** Two commits whose subjects hold a vertical bar; the second is a root
    commit. *)
Definition piped_commits : list commit :=
  [ {| c_hash := "c1"; c_subject := "fix a|b"; c_parents := ["p1"] |};
    {| c_hash := "c2"; c_subject := "fix c|d"; c_parents := [] |} ].

(** A history of two commits with plain subjects; the second is a root
    commit. *)
Definition plain_commits : list commit :=
  [ {| c_hash := "c1"; c_subject := "fix: null check";
       c_parents := ["p1"; "p2"] |};
    {| c_hash := "c2"; c_subject := "bug in parser"; c_parents := [] |} ].

Definition two_guidelines : list string :=
  ["Check for null before dereferencing"; "Keep diffs small"].



(** The text [save] writes for the items a, b and c. *)
Definition abc_text : string :=
  "# Bug-Fixer Prompt Guidelines (evolving)" ++ nl ++ nl ++
  "These are generalized, non-specific lessons learned. Avoid revealing exact historical fixes."
  ++ nl ++ nl ++ "- a" ++ nl ++ "- b" ++ nl ++ "- c" ++ nl.

(** As [cfg], with approval required. *)
Definition cfg_ask : Config :=
  {| max_fix_attempts_per_bug := 2; max_refine_iterations_per_bug := 1;
     logs_dir := "agent_logs"; guidelines_file := "prompt_guidelines.md";
     require_approval := true |}.

(** The scenarios built from [plain_commits] when the two diff commands
    print nothing. *)
Definition plain_scenarios : list BugScenario :=
  [ {| parent_commit := "p1"; fix_commit := "c1";
       subject := "fix: null check"; files_changed := [];
       human_diff := "" |} ].

(** The bytes of a file of five ASCII characters, and a marker. *)
Definition five_bytes : list Byte.byte := list_byte_of_string "abcde".

Definition snip : string := nl ++ nl ++ "/* snip */" ++ nl ++ nl.

End Demo.

(** ** Lemmas on call histories *)

Lemma last_or_snoc prev evs e : last_or prev (evs ++ [e]) = Some e.
Proof. revert prev. induction evs as [|x evs IH]; intros prev; simpl; auto. Qed.

Lemma last_or_None evs : last_or None evs = last evs.
Proof.
  destruct evs as [|x evs _] using rev_ind; [done|].
  by rewrite last_or_snoc, last_snoc.
Qed.

Lemma chain_app R prev a b :
  chain R prev (a ++ b) ↔ chain R prev a ∧ chain R (last_or prev a) b.
Proof.
  revert prev. induction a as [|e a IH]; intros prev; simpl.
  - tauto.
  - rewrite IH. tauto.
Qed.

Lemma steady_nil R : steady R [].
Proof. by intros ?. Qed.

Lemma steady_app R a b : steady R a → steady R b → steady R (a ++ b).
Proof. intros Ha Hb prev. apply chain_app. split; [apply Ha | apply Hb]. Qed.

Lemma chain_at R prev pre e post :
  chain R prev (pre ++ e :: post) → R (last_or prev pre) e.
Proof. rewrite chain_app. simpl. tauto. Qed.

Lemma count_of_app f a b :
  count_of f (a ++ b) = (count_of f a + count_of f b)%nat.
Proof. induction a as [|e a IH]; simpl; [done|]. rewrite IH. lia. Qed.

Lemma count_of_none f evs :
  Forall (λ e, f e = false) evs → count_of f evs = 0%nat.
Proof. induction 1 as [|e evs He _ IH]; simpl; [done|]. by rewrite He, IH. Qed.

Lemma length_range lo hi : length (range lo hi) = Z.to_nat (hi - lo).
Proof. unfold range. by rewrite length_fmap, length_seq. Qed.

Lemma calm_passed t out : ¬ calm (EvRunTests t true out).
Proof. by intros [? ?]. Qed.

Lemma not_calm_passed evs t out :
  EvRunTests t true out ∈ evs → ¬ Forall calm evs.
Proof.
  intros Hin H. rewrite Forall_forall in H.
  by apply H, calm_passed in Hin.
Qed.

Lemma not_calm_checkout evs c :
  EvCheckout c false ∈ evs → ¬ Forall calm evs.
Proof.
  intros Hin H. rewrite Forall_forall in H. by apply H in Hin as [_ ?].
Qed.

Ltac find_event :=
  repeat first [ apply list_elem_of_here | apply list_elem_of_further ].

Lemma no_pass_after_checkout_calm prev e :
  test_passed e = false → no_pass_after_checkout prev e.
Proof.
  destruct prev as [[ | ? [] | | | | | | | | ]|], e; try done.
  by destruct passed.
Qed.

Ltac solve_steady :=
  let prev := fresh "prev" in
  intros prev; cbn [app chain observes_baseline];
  split_and!; try exact I; try reflexivity;
  try (apply no_pass_after_checkout_calm; reflexivity);
  try (left; reflexivity);
  try match goal with
      | H : steady ?R ?e |- chain ?R _ ?e => apply H
      end.

Lemma app_split_seen {A} (l1 rest pre : list A) e post :
  l1 ++ rest = pre ++ e :: post →
  e ∈ l1 ∨ ∃ pre', pre = l1 ++ pre' ∧ rest = pre' ++ e :: post.
Proof.
  revert pre. induction l1 as [|a l1 IH]; intros pre H.
  - right. by exists pre.
  - destruct pre as [|p pre]; cbn in H; injection H as -> H.
    + left. apply list_elem_of_here.
    + destruct (IH _ H) as [?|(pre' & -> & ->)].
      * left. by apply list_elem_of_further.
      * right. by exists pre'.
Qed.



(** ** What one attempt does *)

Section AttemptFacts.

Variable cfg : Config.
Variable E : Env.

Lemma attempt_tested_eq round attempt head proposed l appr passed2 out2
    evs l' :
  approval_events proposed appr →
  evs = appr ++ [EvCleanWorktree; EvApplyPatch (clean_at head) proposed true;
                 EvRunTests (touch (Applied proposed) (clean_at head))
                   passed2 out2] →
  l' = after_tests round attempt proposed out2 passed2
         (set_last_agent_diff proposed l) →
  attempt_case round attempt head proposed l evs l' passed2.
Proof. intros ? -> ->. by constructor. Qed.

Lemma attempt_body_spec round sc attempt w l w' l' brk :
  attempt_body cfg E round sc attempt (w, l) = (w', l', brk) →
  ∃ response evs,
    trace w' =
      trace w ++
      EvPropose (FixerPrompt (Guidelines.as_bullets (items w)) sc
                   (failing_info l) (code_ctx l)) response :: evs
    ∧ items w' = items w ∧ files w' = files w
    ∧ wt_head (tree w') = wt_head (tree w)
    ∧ attempt_case round attempt (wt_head (tree w)) (strip response) l
        evs l' brk.
Proof.
  unfold attempt_body, propose_patch, approval, ensure_clean_worktree,
    apply_unified_diff_with_git, run_tests.
  cbn [emit set_tree trace tree items files].
  intros H.
  repeat case_match; simplify_eq/=.
  all: eexists _, _.
  all: rewrite <- ?app_assoc; cbn [app].
  all: split; [reflexivity|]; do 3 (split; [reflexivity|]).
  all: repeat match goal with
         | H : count_diff_lines ?p = (?a, ?b) |- _ =>
             assert (a = (count_diff_lines p).1) by (by rewrite H);
             assert (b = (count_diff_lines p).2) by (by rewrite H);
             clear H; subst a b
         end.
  all: first
    [ by apply (attempt_soft _ _ _ _ _ []); constructor
    | by apply (attempt_soft _ _ _ _ _ [_]); constructor
    | by apply (attempt_not_applied _ _ _ _ _ []); constructor
    | by apply (attempt_not_applied _ _ _ _ _ [_]); constructor
    | by eapply (attempt_tested_eq _ _ _ _ _ []);
         [constructor | reflexivity | reflexivity]
    | by eapply (attempt_tested_eq _ _ _ _ _ [_]);
         [constructor | reflexivity | reflexivity] ].
Qed.

Lemma attempts_summary_nil head l : attempts_summary head 0 l l [].
Proof.
  split; [apply steady_nil | apply steady_nil | constructor | | | | ]; auto.
Qed.

Lemma attempts_summary_app head n1 n2 l l1 l2 e1 e2 :
  attempts_summary head n1 l l1 e1 →
  attempts_summary head n2 l1 l2 e2 →
  attempts_summary head (n1 + n2) l l2 (e1 ++ e2).
Proof.
  intros [] []. split.
  - by apply steady_app.
  - by apply steady_app.
  - by apply Forall_app.
  - intros [H1 H2]%Forall_app. unfold count_propose in *.
    rewrite count_of_app. destruct (as_count0 H1), (as_count1 H2).
    split; [lia | congruence].
  - destruct as_success0, as_success1; [left | right | right | right];
      congruence.
  - intros Hs Hl. apply as_log1; [done|]. apply as_log0; [|done].
    destruct as_success1; congruence.
  - congruence.
Qed.

Lemma attempts_summary_break head n m l l' evs :
  attempts_summary head n l l' evs → ¬ Forall calm evs →
  attempts_summary head m l l' evs.
Proof. intros [] Hn. split; auto. intros H. by destruct Hn. Qed.

Lemma no_marker_snoc buf e :
  no_marker buf → Log.is_success e = false → no_marker (buf ++ [e]).
Proof. intros. apply Forall_app. split; [done|]. by constructor. Qed.

Lemma after_tests_success round attempt proposed out2 passed2 l :
  success (after_tests round attempt proposed out2 passed2 l)
  = if passed2 then true else success l.
Proof. by destruct passed2, round. Qed.

Lemma after_tests_refine_success round attempt proposed out2 passed2 l :
  refine_success (after_tests round attempt proposed out2 passed2 l)
  = refine_success l.
Proof. by destruct passed2, round. Qed.

Lemma after_tests_no_marker round attempt proposed out2 l :
  no_marker (log_buf l) →
  no_marker (log_buf (after_tests round attempt proposed out2 false l)).
Proof.
  intros H. destruct round; cbn; by repeat apply no_marker_snoc.
Qed.

Lemma no_pass_after_attempt_event prev e :
  from_option is_attempt_event true prev = true →
  no_pass_after_checkout prev e.
Proof. by destruct prev as [[]|]. Qed.

Lemma no_pass_after_attempt_event_any prev p r :
  no_pass_after_checkout prev (EvPropose p r).
Proof. destruct prev as [e|]; [|done]. destruct e; try done. by destruct ok. Qed.

Lemma chain_attempt_events prev evs :
  from_option is_attempt_event true prev = true →
  Forall (λ e, is_attempt_event e = true) evs →
  chain no_pass_after_checkout prev evs.
Proof.
  intros Hp H. revert prev Hp.
  induction H as [|e evs He _ IH]; intros prev Hp; [done|].
  split; [by apply no_pass_after_attempt_event | by apply IH].
Qed.

Lemma steady_attempt_events p r evs :
  Forall (λ e, is_attempt_event e = true) evs →
  steady no_pass_after_checkout (EvPropose p r :: evs).
Proof.
  intros H prev. split; [by apply no_pass_after_attempt_event_any|].
  by apply chain_attempt_events.
Qed.

Lemma attempt_case_summary round attempt head proposed l evs l' brk p r :
  attempt_case round attempt head proposed l evs l' brk →
  attempts_summary head 1 l l' (EvPropose p r :: evs)
  ∧ (brk = true → ¬ Forall calm (EvPropose p r :: evs)).
Proof.
  intros Hc. split.
  - destruct Hc as [appr Ha|appr Ha|appr passed2 out2 Ha];
      destruct Ha; cbn [app]; split.
    all: try (apply steady_attempt_events; repeat constructor; fail).
    all: try (intros prev;
              cbn [chain observes_baseline no_pass_after_checkout];
              repeat split;
              first [ exact I | right; eexists; split; reflexivity ]).
    all: try (repeat constructor; fail).
    all: try (left; reflexivity).
    all: try (intros _; auto; fail).
    all: try reflexivity.
    all: rewrite ?after_tests_success, ?after_tests_refine_success;
         try reflexivity.
    all: destruct passed2; auto.
    all: try (intros H; exfalso; revert H;
              eapply not_calm_passed; find_event; fail).
    all: try (intros; split; reflexivity).
    all: try (intros; by apply after_tests_no_marker).
    all: try discriminate.
  - intros ->. inversion Hc as [| |appr passed2 out2 Ha]; subst.
    eapply not_calm_passed. apply list_elem_of_further, elem_of_app.
    right. find_event.
Qed.

Lemma attempt_loop_spec round sc attempts w l w' l' :
  attempt_loop cfg E round sc attempts (w, l) = (w', l') →
  ∃ evs,
    trace w' = trace w ++ evs
    ∧ items w' = items w ∧ files w' = files w
    ∧ wt_head (tree w') = wt_head (tree w)
    ∧ attempts_summary (wt_head (tree w)) (length attempts) l l' evs.
Proof.
  revert w l. induction attempts as [|attempt rest IH]; intros w l H.
  - injection H as <- <-. exists []. rewrite app_nil_r.
    split_and!; try done. apply attempts_summary_nil.
  - cbn [attempt_loop] in H.
    destruct (attempt_body cfg E round sc attempt (w, l))
      as [[w1 l1] brk] eqn:Hbody.
    apply attempt_body_spec in Hbody
      as (response & evs & Htr & Hit & Hfi & Hhd & Hcase).
    eapply attempt_case_summary in Hcase as [Hsum Hbrk].
    destruct brk.
    + injection H as <- <-. eexists. split_and!; try done.
      eapply attempts_summary_break; [exact Hsum | by apply Hbrk].
    + apply IH in H as (evs2 & Htr2 & Hit2 & Hfi2 & Hhd2 & Hsum2).
      exists ((EvPropose (FixerPrompt (Guidelines.as_bullets (items w)) sc
                 (failing_info l) (code_ctx l)) response :: evs) ++ evs2).
      rewrite Htr2, Htr, Hit2, Hfi2, Hhd2, app_assoc.
      split_and!; try done.
      rewrite Hhd in Hsum2.
      change (length (attempt :: rest)) with (1 + length rest)%nat.
      by eapply attempts_summary_app.
Qed.

Lemma steady_single R e : (∀ prev, R prev e) → steady R [e].
Proof. intros H prev. by split. Qed.

Lemma steady_cons R e evs :
  (∀ prev, R prev e) → chain R (Some e) evs → steady R (e :: evs).
Proof. intros H Hc prev. by split. Qed.

Lemma attempt_events_no_write evs :
  Forall (λ e, is_attempt_event e = true) evs →
  Forall (λ e, is_write_log e = false) evs.
Proof. intros H. eapply Forall_impl; [exact H|]. by intros []. Qed.

Lemma refine_body_spec sc r w l w' l' brk :
  pending l →
  refine_body cfg E sc r (w, l) = (w', l', brk) →
  ∃ evs,
    trace w' = trace w ++ evs
    ∧ rounds_summary (parent_commit sc)
        (Z.to_nat (max_fix_attempts_per_bug cfg)) 1 l' evs
    ∧ (brk = false → pending l' ∧ steady no_pass_after_checkout evs)
    ∧ (brk = true → ¬ Forall calm evs).
Proof.
  intros (Hs & Hr & Hm).
  unfold refine_body, refine, merge_guidelines, save_guidelines,
    git_checkout_detached, ensure_clean_worktree, run_tests,
    load_code_context.
  cbn [emit set_tree set_items write_text trace tree items files].
  intros H.
  repeat case_match; simplify_eq/=.
  1-2: eexists; split; [rewrite <- !app_assoc; reflexivity|];
       cbn [app]; split_and!; try done;
       [ split; [solve_steady | by repeat constructor | | left; solve_steady];
         intros Hc; exfalso; revert Hc; eapply not_calm_checkout; find_event
       | intros _; eapply not_calm_checkout; find_event ].
  1-2: eexists; split; [rewrite <- !app_assoc; reflexivity|];
       cbn [app]; split_and!; try done;
       [ split; [solve_steady | by repeat constructor | | ];
         [ intros Hc; exfalso; revert Hc; eapply not_calm_passed; find_event
         | right;
           first [ eexists [_; _], _, _, _, _; split; [reflexivity|]
                 | eexists [_; _; _], _, _, _, _; split; [reflexivity|] ];
           split_and!; [solve_steady | | reflexivity];
           split_and!; [done | done | by repeat apply no_marker_snoc] ]
       | intros _; eapply not_calm_passed; find_event ].
  all: match goal with
       | H : attempt_loop _ _ _ _ _ _ = _ |- _ =>
           apply attempt_loop_spec in H
             as (evs2 & Htr & _ & _ & _ & Hsum);
           cbn [emit set_tree set_items write_text trace tree items files
                wt_head clean_at] in Htr, Hsum;
           rewrite length_range in Hsum;
           replace (max_fix_attempts_per_bug cfg + 1 - 1)
             with (max_fix_attempts_per_bug cfg) in Hsum by lia;
           destruct Hsum as [Hb Hn Hev Hcount Hsucc Hlog Hrs];
           cbn [success refine_success log_buf set_success
                set_last_agent_diff set_code_ctx set_failing_info log]
             in Hcount, Hsucc, Hlog, Hrs
       end.
  all: rewrite Htr, <- !app_assoc; cbn [app].
  all: eexists; split; [reflexivity|].
  all: assert (Forall (λ e, is_write_log e = false) evs2)
         by (by apply attempt_events_no_write).
  all: split_and!;
       [ split;
         [ solve_steady
         | by repeat (constructor; [reflexivity|])
         | intros Hc; repeat (apply Forall_cons in Hc as [_ Hc]);
           destruct (Hcount Hc) as [Hx Hy];
           unfold count_propose in *; cbn [count_of is_propose];
           first [ congruence | rewrite Hx; lia ]
         | left; solve_steady ]
       | first
           [ discriminate
           | intros _; split; [|solve_steady];
             split_and!;
             [ done | congruence
             | apply Hlog; [done | by apply no_marker_snoc] ] ]
       | first
           [ discriminate
           | intros _ Hc; repeat (apply Forall_cons in Hc as [_ Hc]);
             destruct (Hcount Hc) as [Hx Hy]; congruence ] ].
Qed.

Lemma anomaly_after l' e1 e2 :
  steady no_pass_after_checkout e1 → anomaly l' e2 → anomaly l' (e1 ++ e2).
Proof.
  intros H1 (pre & c & t & out & lg & -> & Hst & Hp & Hlg).
  exists (e1 ++ pre), c, t, out, lg. split_and!; try done.
  - by rewrite app_assoc.
  - rewrite <- app_assoc. by apply steady_app.
Qed.

Lemma refine_loop_spec sc rounds w l w' l' :
  pending l →
  refine_loop cfg E sc rounds (w, l) = (w', l') →
  ∃ evs,
    trace w' = trace w ++ evs
    ∧ rounds_summary (parent_commit sc)
        (Z.to_nat (max_fix_attempts_per_bug cfg)) (length rounds) l' evs.
Proof.
  revert w l. induction rounds as [|r rest IH]; intros w l Hp H.
  - injection H as <- <-. exists []. rewrite app_nil_r. split; [done|].
    split; [apply steady_nil | constructor | done | left; apply steady_nil].
  - cbn [refine_loop] in H.
    destruct (refine_body cfg E sc r (w, l)) as [[w1 l1] brk] eqn:Hbody.
    apply refine_body_spec in Hbody as (e1 & Htr & [] & Hgo & Hstop);
      [|done].
    destruct brk.
    + injection H as <- <-. exists e1. split; [done|].
      split; try done. intros Hc. by destruct Hstop.
    + destruct Hgo as [Hp1 Hst1]; [done|].
      apply IH in H as (e2 & Htr2 & []); [|done].
      exists (e1 ++ e2). rewrite Htr2, Htr, app_assoc. split; [done|].
      split.
      * by apply steady_app.
      * by apply Forall_app.
      * intros [Hc1 Hc2]%Forall_app. unfold count_propose in *.
        rewrite count_of_app, rs_count0, rs_count1 by done.
        cbn [length]. lia.
      * destruct rs_outcome1 as [?|?];
          [left; by apply steady_app | right; by apply anomaly_after].
Qed.

Lemma process_scenario_spec sc w :
  ∃ evs,
    trace (process_scenario cfg E sc w) = trace w ++ evs
    ∧ scenario_run cfg sc w (process_scenario cfg E sc w) evs.
Proof.
  unfold process_scenario, git_checkout_detached, ensure_clean_worktree,
    run_tests, load_code_context, write_log.
  cbn [emit set_tree set_items write_text trace tree items files].
  repeat case_match; simplify_eq/=.
  - eexists. split; [rewrite <- !app_assoc; reflexivity|].
    by apply run_already_passing.
  - match goal with
    | H : attempt_loop _ _ _ _ _ _ = _ |- _ =>
        apply attempt_loop_spec in H as (ea & Htr & _ & _ & _ & Hsum)
    end.
    cbn [emit set_tree trace tree wt_head clean_at] in Htr, Hsum.
    rewrite length_range in Hsum.
    replace (max_fix_attempts_per_bug cfg + 1 - 1)
      with (max_fix_attempts_per_bug cfg) in Hsum by lia.
    eexists. split; [rewrite Htr, <- !app_assoc; reflexivity|].
    eapply (run_fixed _ _ _ _ _ _ _ ea); try exact Hsum; try done.
    cbn [emit write_text files]. apply lookup_insert_eq.
  - match goal with
    | H : attempt_loop _ _ _ _ _ _ = _ |- _ =>
        apply attempt_loop_spec in H as (ea & Htr & _ & _ & _ & Hsum)
    end.
    cbn [emit set_tree trace tree wt_head clean_at] in Htr, Hsum.
    rewrite length_range in Hsum.
    replace (max_fix_attempts_per_bug cfg + 1 - 1)
      with (max_fix_attempts_per_bug cfg) in Hsum by lia.
    match goal with
    | H : refine_loop _ _ _ _ _ = _ |- _ =>
        apply refine_loop_spec in H as (er & Htr2 & Hsum2)
    end.
    2:{ destruct Hsum as [_ _ _ _ _ Hlog Hrs]. split_and!; [done|exact Hrs|].
        apply Hlog; [done|]. by repeat constructor. }
    rewrite length_range in Hsum2.
    replace (max_refine_iterations_per_bug cfg + 1 - 1)
      with (max_refine_iterations_per_bug cfg) in Hsum2 by lia.
    match goal with
    | H : negb _ = _ |- _ =>
        first [ replace (log_buf l0 ++ [LogFailed]) with (final_log l0)
                  by (unfold final_log; by rewrite H)
              | replace (log_buf l0) with (final_log l0)
                  by (unfold final_log; by rewrite H) ]
    end.
    eexists. split; [rewrite Htr2, Htr, <- !app_assoc; reflexivity|].
    eapply (run_refined _ _ _ _ _ _ _ _ ea er);
      try exact Hsum; try exact Hsum2; try done.
    cbn [emit write_text files]. apply lookup_insert_eq.
  - match goal with
    | H : attempt_loop _ _ _ _ _ _ = _ |- _ =>
        apply attempt_loop_spec in H as (ea & Htr & _ & _ & _ & Hsum)
    end.
    cbn [emit set_tree trace tree wt_head clean_at] in Htr, Hsum.
    rewrite length_range in Hsum.
    replace (max_fix_attempts_per_bug cfg + 1 - 1)
      with (max_fix_attempts_per_bug cfg) in Hsum by lia.
    match goal with
    | H : refine_loop _ _ _ _ _ = _ |- _ =>
        apply refine_loop_spec in H as (er & Htr2 & Hsum2)
    end.
    2:{ destruct Hsum as [_ _ _ _ _ Hlog Hrs]. split_and!; [done|exact Hrs|].
        apply Hlog; [done|]. by repeat constructor. }
    rewrite length_range in Hsum2.
    replace (max_refine_iterations_per_bug cfg + 1 - 1)
      with (max_refine_iterations_per_bug cfg) in Hsum2 by lia.
    match goal with
    | H : negb _ = _ |- _ =>
        first [ replace (log_buf l0 ++ [LogFailed]) with (final_log l0)
                  by (unfold final_log; by rewrite H)
              | replace (log_buf l0) with (final_log l0)
                  by (unfold final_log; by rewrite H) ]
    end.
    eexists. split; [rewrite Htr2, Htr, <- !app_assoc; reflexivity|].
    eapply (run_refined _ _ _ _ _ _ _ _ ea er);
      try exact Hsum; try exact Hsum2; try done.
    cbn [emit write_text files]. apply lookup_insert_eq.
  - eexists. split; [rewrite <- !app_assoc; reflexivity|].
    by apply run_checkout_failed.
Qed.

Lemma scenario_events_spec sc w :
  trace (process_scenario cfg E sc w) = trace w ++ scenario_events cfg E sc w
  ∧ scenario_run cfg sc w (process_scenario cfg E sc w)
      (scenario_events cfg E sc w).
Proof.
  destruct (process_scenario_spec sc w) as (evs & Htr & Hrun).
  unfold scenario_events. rewrite Htr, drop_app_length. by split.
Qed.

Lemma entry_events_baseline sc out :
  steady (observes_baseline (parent_commit sc)) (entry_events sc out).
Proof. unfold entry_events. solve_steady. Qed.


Lemma scenario_run_baseline sc w w' evs :
  scenario_run cfg sc w w' evs →
  steady (observes_baseline (parent_commit sc)) evs.
Proof.
  destruct 1 as [| |out l0 l1 ea ? ? ? [] |out l0 l1 l2 ea er ? ? ? [] ? []].
  - solve_steady.
  - solve_steady.
  - apply steady_app; [apply entry_events_baseline|].
    apply steady_app; [done | solve_steady].
  - apply steady_app; [apply entry_events_baseline|].
    apply steady_app; [done|]. apply steady_app; [done | solve_steady].
Qed.

End AttemptFacts.

(** ** The claims about the orchestrator *)

Section Claims.

Variable cfg : Config.
Variable E : Env.

(** C1. Whatever comes before it in a scenario, a patch is applied right
    after a reset of the working tree, to the clean tree of the buggy
    parent; tests run on that clean tree or on it with the one patch just
    applied; the code context is read from the clean tree. This holds for
    the attempts before and after refinement alike. *)
Theorem patch_applied_on_clean_baseline sc w pre e post :
  scenario_events cfg E sc w = pre ++ e :: post →
  observes_baseline (parent_commit sc) (last pre) e.
Proof.
  intros Heq.
  destruct (scenario_events_spec cfg E sc w) as [_ Hrun].
  apply scenario_run_baseline in Hrun.
  specialize (Hrun None). rewrite Heq in Hrun.
  apply chain_at in Hrun. by rewrite last_or_None in Hrun.
Qed.

(** C2. When a scenario runs out of every budget (no test run passes and
    no checkout fails), the proposer is called
    maxAttempts * (1 + maxRefinements) times. *)
Theorem proposer_calls_when_exhausted sc w :
  0 ≤ max_fix_attempts_per_bug cfg →
  0 ≤ max_refine_iterations_per_bug cfg →
  Forall calm (scenario_events cfg E sc w) →
  Z.of_nat (count_propose (scenario_events cfg E sc w))
  = max_fix_attempts_per_bug cfg
    * (1 + max_refine_iterations_per_bug cfg).
Proof.
  intros Ha Hr Hcalm.
  destruct (scenario_events_spec cfg E sc w) as [_ Hrun].
  destruct Hrun
    as [| |out l0 l1 ea ? Hs0 ? [] Hs1
        |out l0 l1 l2 ea er ? Hs0 ? [] Hs1 []].
  - exfalso. revert Hcalm. eapply not_calm_checkout. find_event.
  - exfalso. revert Hcalm. eapply not_calm_passed. find_event.
  - apply Forall_app in Hcalm as [_ [Hc _]%Forall_app].
    destruct (as_count0 Hc). congruence.
  - apply Forall_app in Hcalm as [_ [Hc1 [Hc2 _]%Forall_app]%Forall_app].
    unfold count_propose in *. rewrite !count_of_app.
    destruct (as_count0 Hc1) as [-> _]. rewrite (rs_count0 Hc2).
    cbn [count_of entry_events is_propose].
    rewrite !Nat.add_0_l, Nat.add_0_r, Nat2Z.inj_add, Nat2Z.inj_mul,
      !Z2Nat.id by done.
    ring.
Qed.

(** C3. In every scenario the baseline test run at the checked-out buggy
    parent comes before any proposer or coach call; and when that run
    passes, the scenario ends there: no proposer call, no coach call, and
    the guideline ledger and its file are as they were. *)
Theorem baseline_precedes_llm_calls sc w :
  let evs := scenario_events cfg E sc w in
  let w' := process_scenario cfg E sc w in
  (∀ pre e post,
     evs = pre ++ e :: post → is_llm_call e = true →
     ∃ out pre',
       pre = [EvCleanWorktree; EvCheckout (parent_commit sc) true;
              EvRunTests (clean_at (parent_commit sc)) false out] ++ pre')
  ∧ (∀ t out rest,
       evs = EvCleanWorktree :: EvCheckout (parent_commit sc) true
             :: EvRunTests t true out :: rest →
       rest = [] ∧ count_of is_llm_call evs = 0%nat
       ∧ items w' = items w ∧ files w' = files w).
Proof.
  intros evs w'.
  destruct (scenario_events_spec cfg E sc w) as [_ Hrun].
  fold evs w' in Hrun. clearbody evs w'.
  destruct Hrun
    as [Hi Hf|out Hi Hf|out l0 l1 ea _ _ _ _ _ _
        |out l0 l1 l2 ea er _ _ _ _ _ _ _]; split.
  - intros pre e post Heq Hllm.
    assert (e ∈ [EvCleanWorktree; EvCheckout (parent_commit sc) false])
      as Hin by (rewrite Heq; set_solver).
    set_unfold in Hin. by destruct Hin as [->|[->|[]]].
  - by intros t out rest [=].
  - intros pre e post Heq Hllm.
    assert (e ∈ [EvCleanWorktree; EvCheckout (parent_commit sc) true;
                 EvRunTests (clean_at (parent_commit sc)) true out])
      as Hin by (rewrite Heq; set_solver).
    set_unfold in Hin. by destruct Hin as [->|[->|[->|[]]]].
  - by intros t out' rest [= -> -> <-].
  - intros pre e post Heq Hllm.
    apply app_split_seen in Heq as [Hin|(pre' & -> & _)].
    + set_unfold in Hin. by destruct Hin as [->|[->|[->|[->|[]]]]].
    + by eexists out, (_ :: pre').
  - by intros t out' rest [=].
  - intros pre e post Heq Hllm.
    apply app_split_seen in Heq as [Hin|(pre' & -> & _)].
    + set_unfold in Hin. by destruct Hin as [->|[->|[->|[->|[]]]]].
    + by eexists out, (_ :: pre').
  - by intros t out' rest [=].
Qed.




(** The log file's name comes from the two truncated commit identifiers. *)
Lemma log_path_name sc :
  log_path cfg sc
  = (logs_dir cfg ++ "/" ++ slice_to 10 (parent_commit sc) ++ "_"
     ++ slice_to 10 (fix_commit sc) ++ ".md")%string.
Proof. reflexivity. Qed.

End Claims.

(** ** The guideline ledger and the coach's answer *)

Section Ledger.

Variable cfg : Config.

Lemma merged_prefix (its new : list string) :
  its `prefix_of` Guidelines.merged its new.
Proof.
  unfold Guidelines.merged. revert its.
  induction new as [|g new IH]; intros its; [done|].
  cbn [foldl]. case_decide; [apply IH|].
  etrans; [|apply IH]. by apply prefix_app_r.
Qed.

Lemma merged_NoDup (its new : list string) :
  NoDup its → NoDup (Guidelines.merged its new).
Proof.
  unfold Guidelines.merged. revert its.
  induction new as [|g new IH]; intros its Hnd; [done|].
  cbn [foldl]. case_decide; apply IH; [done|].
  apply NoDup_app. split_and!; [done| |apply NoDup_singleton].
  intros x Hx ->%list_elem_of_singleton. done.
Qed.

Lemma merge_all_snoc batches batch (w : world) :
  merge_all cfg (batches ++ [batch]) w
  = merge_guidelines cfg batch (merge_all cfg batches w).
Proof. unfold merge_all. by rewrite foldl_app. Qed.

Lemma merge_all_items batches (w : world) :
  NoDup (items w) →
  NoDup (items (merge_all cfg batches w))
  ∧ items w `prefix_of` items (merge_all cfg batches w).
Proof.
  induction batches as [|batch batches IH] using rev_ind; intros Hnd.
  - done.
  - rewrite merge_all_snoc. destruct (IH Hnd) as [Hnd' Hpre].
    cbn. split; [by apply merged_NoDup|].
    etrans; [exact Hpre | apply merged_prefix].
Qed.

Lemma elem_of_merged (its new : list string) g :
  g ∈ Guidelines.merged its new ↔ g ∈ its ∨ g ∈ new.
Proof.
  unfold Guidelines.merged. revert its.
  induction new as [|x new IH]; intros its.
  - cbn. split; [by left | by intros [?|?%elem_of_nil]].
  - cbn [foldl]. rewrite IH, elem_of_cons.
    case_decide; [split; [tauto | intros [?|[->|?]]; tauto]|].
    rewrite elem_of_app, list_elem_of_singleton. tauto.
Qed.

Lemma merge_all_elem batches (w : world) g :
  g ∈ items (merge_all cfg batches w)
  ↔ g ∈ items w ∨ ∃ batch, batch ∈ batches ∧ g ∈ batch.
Proof.
  induction batches as [|batch batches IH] using rev_ind.
  - split; [by left|]. by intros [?|(? & ?%elem_of_nil & _)].
  - rewrite merge_all_snoc. cbn [merge_guidelines save_guidelines emit
      write_text set_items items].
    rewrite elem_of_merged, IH. split.
    + intros [[?|(b & Hb & ?)]|?]; [by left | |].
      * right. exists b. split; [|done]. apply elem_of_app. by left.
      * right. exists batch. split; [|done]. apply elem_of_app. right.
        by apply list_elem_of_singleton.
    + intros [?|(b & Hb & ?)]; [by left; left|].
      apply elem_of_app in Hb as [Hb|Hb%list_elem_of_singleton].
      * left. right. by exists b.
      * right. by subst b.
Qed.

Lemma merge_all_saves batches (w : world) :
  ∃ saves,
    trace (merge_all cfg batches w) = trace w ++ saves
    ∧ length saves = length batches
    ∧ Forall (λ e, is_save e = true) saves.
Proof.
  induction batches as [|batch batches IH] using rev_ind.
  - exists []. by rewrite app_nil_r.
  - destruct IH as (saves & Htr & Hlen & Hall).
    rewrite merge_all_snoc. cbn [merge_guidelines save_guidelines emit
      write_text set_items trace].
    eexists (saves ++ [_]). rewrite Htr, <- app_assoc. split; [reflexivity|].
    rewrite !length_app, Hlen. split; [done|].
    apply Forall_app. split; [done|]. by repeat constructor.
Qed.

(** C4. From a ledger of pairwise distinct items, after any sequence of
    merges the items are still pairwise distinct and the items of every
    earlier stage are a prefix of the later ones; the items are the old
    ones and those of the batches; every merge saves at once, so the
    history grows by one save per merge; and after the last merge the
    ledger file holds the two header paragraphs followed by one line
    [- item] for each of the current items, in their order. *)
Theorem ledger_merge_invariant (w : world) (earlier later : list (list string)) :
  NoDup (items w) →
  let w1 := merge_all cfg earlier w in
  let w2 := merge_all cfg (earlier ++ later) w in
  let text :=
    "# Bug-Fixer Prompt Guidelines (evolving)" +:+ nl +:+ nl +:+
    "These are generalized, non-specific lessons learned. Avoid revealing exact historical fixes."
    +:+ nl +:+ nl +:+ concat ((λ it, "- " +:+ it +:+ nl) <$> items w2) in
  NoDup (items w2)
  ∧ items w1 `prefix_of` items w2
  ∧ (∀ g, g ∈ items w2
          ↔ g ∈ items w ∨ ∃ batch, batch ∈ earlier ++ later ∧ g ∈ batch)
  ∧ (∃ saves,
       trace w2 = trace w ++ saves
       ∧ length saves = length (earlier ++ later)
       ∧ Forall (λ e, is_save e = true) saves)
  ∧ (earlier ++ later ≠ [] →
     files w2 !! guidelines_file cfg = Some text
     ∧ last (trace w2) = Some (EvSaveGuidelines (guidelines_file cfg) text)).
Proof.
  intros Hnd w1 w2 text. split_and!.
  - by apply merge_all_items.
  - subst w1 w2. unfold merge_all. rewrite foldl_app.
    apply merge_all_items. by apply merge_all_items.
  - intros g. apply merge_all_elem.
  - apply merge_all_saves.
  - change text with (Guidelines.save_text (items w2)). clear text.
    subst w2. destruct (earlier ++ later) as [|b bs _] using rev_ind;
      [done|].
    intros _. rewrite merge_all_snoc. cbn. split.
    + apply lookup_insert_eq.
    + apply last_snoc.
Qed.

End Ledger.

Section Coach.

Lemma lstrip_head s :
  lstrip s = "" ∨ ∃ c r, lstrip s = String c r ∧ is_space c = false.
Proof.
  induction s as [|c s IH]; [by left|]. cbn.
  destruct (is_space c) eqn:Hc; [done|]. right. by exists c, s.
Qed.

Lemma rstrip_head c r :
  is_space c = false → ∃ r', rstrip (String c r) = String c r'.
Proof. intros Hc. cbn. rewrite Hc. destruct (rstrip r); by eexists. Qed.
















End Coach.

(** ** The claims at concrete runs *)

(** C1 at the run of the specification's example: the patch that fails to
    apply is applied right after a reset, on the clean tree. *)
Lemma patch_applied_on_clean_baseline_witness :
  let evs := scenario_events Demo.cfg Demo.env_refined Demo.sc Demo.w0 in
  observes_baseline (parent_commit Demo.sc) (last (take 7 evs))
    (EvApplyPatch (clean_at (parent_commit Demo.sc)) Demo.stale_diff false).
Proof.
  intros evs.
  apply (patch_applied_on_clean_baseline Demo.cfg Demo.env_refined Demo.sc
           Demo.w0 (take 7 evs) _ (drop 8 evs)).
  vm_compute. reflexivity.
Defined.

(** C2 with two attempts and one refinement round: four proposer calls. *)
Lemma proposer_calls_when_exhausted_witness :
  Z.of_nat (count_propose
              (scenario_events Demo.cfg Demo.env_exhausted Demo.sc Demo.w0))
  = 2 * (1 + 1).
Proof.
  apply (proposer_calls_when_exhausted Demo.cfg Demo.env_exhausted Demo.sc
           Demo.w0).
  - vm_compute. discriminate.
  - vm_compute. discriminate.
  - vm_compute. repeat constructor.
Defined.



(** C4 at three batches merged into an empty ledger: the file holds the
    header and the bullets of a, b and c. *)
Lemma ledger_merge_invariant_witness :
  let w2 := merge_all Demo.cfg [["a"; "b"]; ["b"; "c"]; []] Demo.w0 in
  NoDup (items w2)
  ∧ items (merge_all Demo.cfg [["a"; "b"]] Demo.w0) `prefix_of` items w2
  ∧ (∀ g, g ∈ items w2
          ↔ g ∈ items Demo.w0
            ∨ ∃ batch, batch ∈ [["a"; "b"]] ++ [["b"; "c"]; []] ∧ g ∈ batch)
  ∧ (∃ saves,
       trace w2 = trace Demo.w0 ++ saves
       ∧ length saves = length ([["a"; "b"]] ++ [["b"; "c"]; []])
       ∧ Forall (λ e, is_save e = true) saves)
  ∧ files w2 !! guidelines_file Demo.cfg = Some Demo.abc_text
  ∧ last (trace w2)
    = Some (EvSaveGuidelines (guidelines_file Demo.cfg) Demo.abc_text).
Proof.
  intros w2.
  pose proof (ledger_merge_invariant Demo.cfg Demo.w0 [["a"; "b"]]
                [["b"; "c"]; []]) as H.
  cbv zeta in H. destruct H as (H1 & H2 & H3 & H4 & H5).
  - vm_compute. constructor.
  - destruct H5 as [H5 H6]; [discriminate|].
    split_and!; [exact H1 | exact H2 | exact H3 | exact H4 | exact H5
                | exact H6].
Defined.



(** ** Saving and re-loading the ledger *)

Section RoundTrip.

Lemma append_cons x (a b : string) : String x a +:+ b = String x (a +:+ b).
Proof. reflexivity. Qed.

Lemma append_assoc_s (a b c : string) : (a +:+ b) +:+ c = a +:+ (b +:+ c).
Proof.
  induction a as [|x a IH]; [done|]. rewrite !append_cons. by f_equal.
Qed.

Lemma lines_lf_line l rest :
  lacks LF l = true → lines_lf (l +:+ String LF rest) = l :: lines_lf rest.
Proof.
  induction l as [|a l IH]; intros Hl.
  - change (lines_lf (String LF rest) = "" :: lines_lf rest).
    cbn [lines_lf]. unfold ascii_eqb. by rewrite bool_decide_eq_true_2.
  - cbn [lacks] in Hl. apply andb_true_iff in Hl as [Ha Hl].
    apply negb_true_iff in Ha. rewrite append_cons. cbn [lines_lf].
    by rewrite Ha, (IH Hl).
Qed.

Lemma universal_newlines_app a b :
  lacks CR a = true →
  universal_newlines (a +:+ b) = a +:+ universal_newlines b.
Proof.
  induction a as [|x a IH]; intros Ha; [done|].
  cbn [lacks] in Ha. apply andb_true_iff in Ha as [Hx Ha].
  apply negb_true_iff in Hx. rewrite !append_cons.
  cbn [universal_newlines]. by rewrite Hx, (IH Ha).
Qed.

Lemma universal_newlines_id s :
  lacks CR s = true → universal_newlines s = s.
Proof.
  induction s as [|x s IH]; intros Hs; [done|].
  cbn [lacks] in Hs. apply andb_true_iff in Hs as [Hx Hs].
  apply negb_true_iff in Hx. cbn [universal_newlines].
  by rewrite Hx, (IH Hs).
Qed.

Lemma lacks_app c a b : lacks c (a +:+ b) = lacks c a && lacks c b.
Proof.
  induction a as [|x a IH]; [done|]. rewrite append_cons. cbn [lacks].
  rewrite IH. by rewrite andb_assoc.
Qed.

Lemma bullets_lack_cr its :
  Forall Guidelines.storable its →
  lacks CR (concat (Guidelines.bullet <$> its)) = true.
Proof.
  induction 1 as [|it its (_ & _ & _ & Hcr) _ IH]; [done|].
  cbn [fmap list_fmap concat foldr]. unfold Guidelines.bullet at 1.
  fold (concat (Guidelines.bullet <$> its)).
  by rewrite !lacks_app, Hcr, IH.
Qed.

Lemma bullet_app it rest :
  Guidelines.bullet it +:+ rest = ("- " +:+ it) +:+ String LF rest.
Proof. unfold Guidelines.bullet. by rewrite !append_assoc_s. Qed.

Lemma bullets_blocks its :
  Forall Guidelines.storable its →
  Guidelines.findall_blocks (concat (Guidelines.bullet <$> its)) = its.
Proof.
  unfold Guidelines.findall_blocks.
  induction 1 as [|it its (Hne & _ & Hlf & _) _ IH]; [done|].
  cbn [fmap list_fmap concat foldr]. rewrite bullet_app.
  fold (concat (Guidelines.bullet <$> its)).
  rewrite lines_lf_line by (by rewrite lacks_app, Hlf).
  assert (Guidelines.bullet_block ("- " +:+ it) = Some it) as Hb
    by (unfold Guidelines.bullet_block; by destruct it).
  change (omap ?f (?x :: ?l))
    with (match f x with Some y => y :: omap f l | None => omap f l end).
  by rewrite Hb, IH.
Qed.

Lemma header_blocks body :
  lacks CR body = true →
  Guidelines.findall_blocks
    (universal_newlines (Guidelines.header +:+ body))
  = Guidelines.findall_blocks body.
Proof.
  intros Hb. rewrite universal_newlines_app by done.
  rewrite universal_newlines_id by done.
  unfold Guidelines.findall_blocks.
  change (Guidelines.header +:+ body)
    with ("# Bug-Fixer Prompt Guidelines (evolving)"
          +:+ String LF
                ("" +:+ String LF
                   ("These are generalized, non-specific lessons learned. Avoid revealing exact historical fixes."
                    +:+ String LF ("" +:+ String LF body)))).
  by rewrite !lines_lf_line.
Qed.

(** Saving and re-loading gives the ledger back when every item is a
    stripped, non-empty single line. *)
Lemma ledger_roundtrip_single_line its :
  Forall Guidelines.storable its →
  Guidelines.load_text (Guidelines.save_text its) = its.
Proof.
  intros Hits. unfold Guidelines.load_text, Guidelines.save_text.
  rewrite header_blocks by (by apply bullets_lack_cr).
  rewrite bullets_blocks by done.
  induction Hits as [|it its (Hne & Hst & _) _ IH]; [done|].
  cbn [fmap list_fmap]. rewrite Hst, filter_cons_True by done.
  f_equal. exact IH.
Qed.

(** The round trip at a ledger of two one-line guidelines. *)
Lemma ledger_roundtrip_single_line_witness :
  Guidelines.load_text (Guidelines.save_text Demo.two_guidelines)
  = Demo.two_guidelines.
Proof.
  apply (ledger_roundtrip_single_line Demo.two_guidelines).
  repeat constructor; try discriminate; vm_compute; reflexivity.
Defined.

End RoundTrip.

(** ** Commit discovery on plain histories *)

Section Discovery.

Lemma append_nil_s (b : string) : "" +:+ b = b.
Proof. reflexivity. Qed.

Lemma all_chars_app f a b :
  all_chars f (a +:+ b) = all_chars f a && all_chars f b.
Proof.
  induction a as [|x a IH]; [done|]. rewrite append_cons. cbn [all_chars].
  by rewrite IH, andb_assoc.
Qed.

Lemma all_chars_impl (f g : ascii → bool) s :
  (∀ c, f c = true → g c = true) →
  all_chars f s = true → all_chars g s = true.
Proof.
  intros Hfg. induction s as [|x s IH]; [done|]. cbn [all_chars].
  intros [Hx Hs]%andb_true_iff. by rewrite (Hfg _ Hx), (IH Hs).
Qed.

Lemma split_once_none sep s :
  all_chars (λ c, negb (ascii_eqb c sep)) s = true →
  split_once sep s = (s, None).
Proof.
  induction s as [|x s IH]; [done|]. cbn [all_chars split_once].
  intros [Hx Hs]%andb_true_iff. apply negb_true_iff in Hx.
  by rewrite Hx, (IH Hs).
Qed.

Lemma split_once_at sep a b :
  all_chars (λ c, negb (ascii_eqb c sep)) a = true →
  split_once sep (a +:+ String sep b) = (a, Some b).
Proof.
  induction a as [|x a IH].
  - intros _. rewrite append_nil_s. cbn [split_once]. unfold ascii_eqb.
    by rewrite bool_decide_eq_true_2.
  - cbn [all_chars]. intros [Hx Ha]%andb_true_iff.
    apply negb_true_iff in Hx. rewrite append_cons. cbn [split_once].
    by rewrite Hx, (IH Ha).
Qed.

Lemma lstrip_clean c s : is_space c = false → lstrip (String c s) = String c s.
Proof. intros Hc. cbn. by rewrite Hc. Qed.

Lemma rstrip_clean s : ends_clean s = true → rstrip s = s.
Proof.
  induction s as [|c s IH]; [done|]. intros Hs. cbn [rstrip].
  destruct s as [|c' s].
  - cbn in Hs. apply negb_true_iff in Hs. by rewrite Hs.
  - rewrite IH by exact Hs. done.
Qed.

Lemma ends_clean_app a b : ends_clean b = true → ends_clean (a +:+ b) = true.
Proof.
  intros Hb. induction a as [|x a IH]; [done|]. rewrite append_cons.
  destruct (a +:+ b); [done|]. exact IH.
Qed.

Lemma is_id_ends_clean s : is_id s → ends_clean s = true.
Proof.
  intros [Hne Hall]. induction s as [|c s IH]; [done|].
  cbn [all_chars] in Hall.
  apply andb_true_iff in Hall as [[Hc _]%andb_true_iff Hs].
  destruct s as [|c' s]; [exact Hc|]. by apply IH.
Qed.

Lemma is_id_head s :
  is_id s → ∃ c r, s = String c r ∧ is_space c = false.
Proof.
  intros [Hne Hall]. destruct s as [|c r]; [done|]. exists c, r.
  cbn [all_chars] in Hall.
  apply andb_true_iff in Hall as [[Hc _]%andb_true_iff _].
  by apply negb_true_iff in Hc.
Qed.

Lemma linebreak_is_space c : is_linebreak c = true → is_space c = true.
Proof. destruct c as [[] [] [] [] [] [] [] []]; by vm_compute. Qed.

Lemma is_id_no_bar s :
  is_id s → all_chars (λ c, negb (ascii_eqb c "|"%char)) s = true.
Proof.
  intros [_ H]. eapply all_chars_impl; [|exact H].
  by intros c [_ ?]%andb_true_iff.
Qed.

Lemma is_id_no_space s :
  is_id s → all_chars (λ c, negb (ascii_eqb c " "%char)) s = true.
Proof.
  intros [_ H]. eapply all_chars_impl; [|exact H].
  intros c [Hc _]%andb_true_iff. unfold ascii_eqb.
  case_bool_decide as Heq; [|done]. by rewrite Heq in Hc.
Qed.

Lemma is_id_no_linebreak s :
  is_id s → all_chars (λ c, negb (is_linebreak c)) s = true.
Proof.
  intros [_ H]. eapply all_chars_impl; [|exact H].
  intros c [Hc _]%andb_true_iff. apply negb_true_iff in Hc.
  apply negb_true_iff. destruct (is_linebreak c) eqn:Hl; [|done].
  apply linebreak_is_space in Hl. congruence.
Qed.

Lemma join_cons2 sep p q r :
  join sep (p :: q :: r) = p +:+ sep +:+ join sep (q :: r).
Proof. reflexivity. Qed.

Lemma first_of_join p ps :
  is_id p → (split_once " "%char (join " " (p :: ps))).1 = p.
Proof.
  intros Hp. destruct ps as [|q r].
  - cbn [join]. by rewrite split_once_none by (by apply is_id_no_space).
  - rewrite join_cons2.
    change (" " +:+ ?x) with (String " "%char x).
    by rewrite split_once_at by (by apply is_id_no_space).
Qed.

Lemma join_ids_ends_clean p ps :
  Forall is_id (p :: ps) → ends_clean (join " " (p :: ps)) = true.
Proof.
  revert p. induction ps as [|q r IH]; intros p Hall.
  - apply is_id_ends_clean. by apply Forall_inv in Hall.
  - rewrite join_cons2. apply ends_clean_app, ends_clean_app, IH.
    by apply Forall_inv_tail in Hall.
Qed.

Lemma join_ids_no_linebreak ps :
  Forall is_id ps →
  all_chars (λ c, negb (is_linebreak c)) (join " " ps) = true.
Proof.
  induction ps as [|p [|q r] IH]; intros Hall; [done| |].
  - apply is_id_no_linebreak. by apply Forall_inv in Hall.
  - rewrite join_cons2, !all_chars_app.
    rewrite (is_id_no_linebreak p) by (by apply Forall_inv in Hall).
    rewrite IH by (by apply Forall_inv_tail in Hall). done.
Qed.

Lemma log_line_clean c :
  plain_commit c →
  strip (log_line c) = log_line c
  ∧ log_line c ≠ ""
  ∧ all_chars (λ a, negb (is_linebreak a)) (log_line c) = true.
Proof.
  intros (Hh & Hs & Hps). unfold log_line.
  destruct (is_id_head _ Hh) as (ch & rh & Heq & Hch).
  split_and!.
  - unfold strip. rewrite Heq, append_cons, lstrip_clean by done.
    rewrite <- append_cons, <- Heq. apply rstrip_clean.
    do 3 apply ends_clean_app.
    destruct (c_parents c) as [|p ps]; [done|].
    change ("|" +:+ ?x) with (String "|"%char x).
    pose proof (join_ids_ends_clean p ps Hps) as Hj.
    cbn [ends_clean]. by destruct (join " " (p :: ps)).
  - by rewrite Heq.
  - assert (all_chars (λ a, negb (is_linebreak a)) (c_subject c) = true)
      as Hs'.
    { eapply all_chars_impl; [|exact Hs]. by intros a [? _]%andb_true_iff. }
    by rewrite !all_chars_app, (is_id_no_linebreak _ Hh),
      (join_ids_no_linebreak _ Hps), Hs'.
Qed.

Lemma parse_log_line c :
  plain_commit c →
  Detect.parse_line (log_line c)
  = Some (match c_parents c with
          | p :: _ => Some (p, c_hash c, c_subject c)
          | [] => None
          end).
Proof.
  intros Hc. destruct (log_line_clean c Hc) as (Hstrip & Hne & _).
  destruct Hc as (Hh & Hs & Hps).
  unfold Detect.parse_line. rewrite Hstrip, decide_False by done.
  assert (split2 "|"%char (log_line c)
          = [c_hash c; c_subject c; join " " (c_parents c)]) as ->.
  { unfold split2.
    change (log_line c)
      with (c_hash c +:+ String "|"%char
              (c_subject c +:+ String "|"%char (join " " (c_parents c)))).
    rewrite split_once_at by (by apply is_id_no_bar).
    rewrite split_once_at; [done|].
    eapply all_chars_impl; [|exact Hs]. by intros a [_ ?]%andb_true_iff. }
  cbn [app take]. destruct (c_parents c) as [|p ps].
  - by rewrite decide_True.
  - assert (is_id p) as Hp by (by apply Forall_inv in Hps).
    assert (join " " (p :: ps) ≠ "") as Hj.
    { pose proof (join_ids_ends_clean p ps Hps).
      by destruct (join " " (p :: ps)). }
    rewrite (decide_False (P:=(join " " (p :: ps) = ""))) by done.
    rewrite first_of_join by done.
    rewrite decide_False by (by destruct Hp). done.
Qed.

Lemma splitlines_plain l :
  l ≠ "" → all_chars (λ c, negb (is_linebreak c)) l = true →
  splitlines l = [l].
Proof.
  induction l as [|c l IH]; [done|]. intros _. cbn [all_chars splitlines].
  intros [Hc Hl]%andb_true_iff. apply negb_true_iff in Hc. rewrite Hc.
  destruct l as [|c' l]; [done|]. by rewrite IH.
Qed.

Lemma splitlines_plain_lf l rest :
  all_chars (λ c, negb (is_linebreak c)) l = true → rest ≠ "" →
  splitlines (l +:+ String LF rest) = l :: splitlines rest.
Proof.
  intros Hl Hrest. induction l as [|c l IH].
  - rewrite append_nil_s. destruct rest as [|c2 r]; [done|]. done.
  - cbn [all_chars] in Hl. apply andb_true_iff in Hl as [Hc Hl].
    apply negb_true_iff in Hc. rewrite append_cons. cbn [splitlines].
    by rewrite Hc, (IH Hl).
Qed.

Lemma splitlines_join lines :
  Forall (λ l, l ≠ ""
               ∧ all_chars (λ c, negb (is_linebreak c)) l = true) lines →
  splitlines (join nl lines) = lines.
Proof.
  induction lines as [|l [|l2 ls] IH]; intros Hall; [done| |].
  - apply Forall_inv in Hall as [? ?]. by apply splitlines_plain.
  - rewrite join_cons2. change (nl +:+ ?x) with (String LF x).
    pose proof (Forall_inv Hall) as [_ Hl].
    pose proof (Forall_inv_tail Hall) as Htl.
    rewrite splitlines_plain_lf, IH; try done.
    pose proof (Forall_inv Htl) as [Hne _].
    destruct ls; [done|]. rewrite join_cons2. by destruct l2.
Qed.

(** Commit discovery does what lines 129-131 and 148 say on every history
    whose subjects hold no vertical bar and no line boundary: the pairs
    are the first parent, commit and subject of each commit that has a
    parent, so root commits are left out. *)
Lemma plain_commits_parse commits :
  Forall plain_commit commits →
  Detect.pairs_of_log (git_log_output commits)
  = Some (first_parent_pairs commits).
Proof.
  intros Hall. unfold Detect.pairs_of_log, git_log_output.
  rewrite splitlines_join.
  2:{ apply Forall_fmap. eapply Forall_impl; [exact Hall|].
      intros c Hc. by destruct (log_line_clean c Hc) as (_ & ? & ?). }
  unfold first_parent_pairs.
  induction Hall as [|c cs Hc _ IH]; [done|].
  cbn [fmap list_fmap Detect.parse_lines].
  fold (fmap (M:=list) log_line cs).
  rewrite (parse_log_line c Hc), IH.
  change (omap ?f (c :: cs))
    with (match f c with Some y => y :: omap f cs | None => omap f cs end).
  reflexivity.
Qed.

(** Commit discovery at a history of two plain commits. *)
Lemma plain_commits_parse_witness :
  Detect.pairs_of_log (git_log_output Demo.plain_commits)
  = Some [("p1", "c1", "fix: null check")]%string.
Proof.
  apply (plain_commits_parse Demo.plain_commits).
  repeat constructor; try discriminate; vm_compute; reflexivity.
Defined.

End Discovery.




(** C5 fails on the code: a coach answer that is a JSON array holding a
    string of two lines puts that string into the ledger; [save] writes
    it over two lines, and [load] reads back a different ledger. *)
Theorem saved_ledger_reloads_differently :
  let w' := process_scenario Demo.cfg Demo.env_json Demo.sc Demo.w0 in
  items w' = [Demo.two_line_guideline]
  ∧ files w' !! guidelines_file Demo.cfg
    = Some (Guidelines.save_text (items w'))
  ∧ items (load_guidelines Demo.cfg w') = ["Check inputs"%string]
  ∧ Guidelines.load_text (Guidelines.save_text (items w')) ≠ items w'.
Proof. vm_compute. split_and!; try reflexivity. discriminate. Qed.

(** C10 fails on the code: the log line is split at the first two
    vertical bars, so a bar in the subject moves the rest of the subject
    into the parents. The scenario of commit c1 gets a parent that is not
    its first parent p1, and the root commit c2 becomes a scenario. *)
Theorem bar_in_subject_breaks_parent :
  option_map (map (λ sc, (parent_commit sc, fix_commit sc, subject sc)))
    (build_scenarios (λ _ _, []) (λ _ _, ""%string)
       (git_log_output Demo.piped_commits))
  = Some [("b|p1", "c1", "fix a"); ("d|", "c2", "fix c")]%string.
Proof. vm_compute. reflexivity. Qed.

(** ** What [load] reads from any file *)

Section Reload.

Lemma rstrip_cons c s :
  rstrip (String c s)
  = match rstrip s with
    | "" => if is_space c then "" else String c ""
    | r => String c r
    end%string.
Proof. reflexivity. Qed.

Lemma rstrip_idem s : rstrip (rstrip s) = rstrip s.
Proof.
  induction s as [|c s IH]; [done|]. rewrite rstrip_cons.
  destruct (rstrip s) as [|a r] eqn:Hr.
  - destruct (is_space c) eqn:Hc; [done|]. cbn. by rewrite Hc.
  - by rewrite rstrip_cons, IH.
Qed.

Lemma strip_idem s : strip (strip s) = strip s.
Proof.
  unfold strip. destruct (lstrip_head s) as [->|(c & r & -> & Hc)]; [done|].
  destruct (rstrip_head c r Hc) as (r' & Hr). rewrite Hr.
  rewrite lstrip_clean by done. rewrite <- Hr. apply rstrip_idem.
Qed.

Lemma lacks_lstrip c s : lacks c s = true → lacks c (lstrip s) = true.
Proof.
  induction s as [|a s IH]; [done|]. intros H. cbn [lstrip].
  destruct (is_space a); [|done].
  cbn [lacks] in H. apply andb_true_iff in H as [_ H]. by apply IH.
Qed.

Lemma lacks_rstrip c s : lacks c s = true → lacks c (rstrip s) = true.
Proof.
  induction s as [|a s IH]; [done|]. intros H.
  cbn [lacks] in H. apply andb_true_iff in H as [Ha H].
  rewrite rstrip_cons. specialize (IH H).
  destruct (rstrip s) as [|b r].
  - destruct (is_space a); [done|]. cbn [lacks]. by rewrite Ha.
  - cbn [lacks] in *. by rewrite Ha, IH.
Qed.

Lemma lacks_strip c s : lacks c s = true → lacks c (strip s) = true.
Proof. intros H. unfold strip. by apply lacks_rstrip, lacks_lstrip. Qed.

Lemma lines_lf_lack_lf s : Forall (λ l, lacks LF l = true) (lines_lf s).
Proof.
  induction s as [|c s IH]; [by repeat constructor|].
  cbn [lines_lf]. destruct (ascii_eqb c LF) eqn:Hc; [by constructor|].
  destruct (lines_lf s) as [|l ls]; [repeat constructor; cbn; by rewrite Hc|].
  apply Forall_cons in IH as [Hl Hls].
  constructor; [|done]. cbn [lacks]. by rewrite Hc, Hl.
Qed.

Lemma lines_lf_lack c s :
  lacks c s = true → Forall (λ l, lacks c l = true) (lines_lf s).
Proof.
  induction s as [|a s IH]; [by repeat constructor|].
  intros H. cbn [lacks] in H. apply andb_true_iff in H as [Ha H].
  specialize (IH H). cbn [lines_lf].
  destruct (ascii_eqb a LF); [by constructor|].
  destruct (lines_lf s) as [|l ls]; [repeat constructor; cbn; by rewrite Ha|].
  apply Forall_cons in IH as [Hl Hls].
  constructor; [|done]. cbn [lacks]. by rewrite Ha, Hl.
Qed.

Lemma string_length_ind (P : string → Prop) :
  (∀ s, (∀ t, (String.length t < String.length s)%nat → P t) → P s) →
  ∀ s, P s.
Proof.
  intros H s. remember (String.length s) as n eqn:Hn. revert s Hn.
  induction n as [n IH] using lt_wf_ind. intros s ->.
  apply H. intros t Ht. by eapply IH.
Qed.

Lemma universal_newlines_lacks_cr s :
  lacks CR (universal_newlines s) = true.
Proof.
  induction s as [s IH] using string_length_ind.
  destruct s as [|c s]; [done|]. cbn [universal_newlines].
  destruct (ascii_eqb c CR) eqn:Hc.
  - destruct s as [|c2 s]; [done|].
    destruct (ascii_eqb c2 LF); cbn [lacks];
      rewrite IH by (cbn; lia); done.
  - cbn [lacks]. rewrite Hc, IH by (cbn; lia). done.
Qed.

Lemma strip_prefix_Some p s r : strip_prefix p s = Some r → s = p +:+ r.
Proof.
  revert s. induction p as [|a p IH]; intros s H.
  - cbn in H. by injection H as ->.
  - destruct s as [|b s]; [done|]. cbn [strip_prefix] in H.
    unfold ascii_eqb in H. case_bool_decide; [|done]. subst b.
    rewrite append_cons. f_equal. by apply IH.
Qed.

Lemma bullet_block_lacks c line b :
  Guidelines.bullet_block line = Some b →
  lacks c line = true → lacks c b = true.
Proof.
  unfold Guidelines.bullet_block. intros H Hl.
  destruct (strip_prefix "- " line) as [rest|] eqn:Hp; [|done].
  apply strip_prefix_Some in Hp. subst line.
  rewrite lacks_app in Hl. apply andb_true_iff in Hl as [_ Hl].
  destruct rest; by simplify_eq.
Qed.

Lemma load_text_storable content :
  Forall Guidelines.storable (Guidelines.load_text content).
Proof.
  unfold Guidelines.load_text, Guidelines.findall_blocks.
  apply Forall_forall. intros it [Hne Hin]%list_elem_of_filter.
  apply list_elem_of_fmap in Hin as (b & -> & Hb).
  apply list_elem_of_omap in Hb as (line & Hline & Hb).
  split_and!; [done | apply strip_idem | |].
  - apply lacks_strip. eapply bullet_block_lacks; [exact Hb|].
    pose proof (lines_lf_lack_lf (universal_newlines content)) as Hall.
    rewrite Forall_forall in Hall. by apply Hall.
  - apply lacks_strip. eapply bullet_block_lacks; [exact Hb|].
    pose proof (lines_lf_lack CR _ (universal_newlines_lacks_cr content))
      as Hall.
    rewrite Forall_forall in Hall. by apply Hall.
Qed.

Lemma storable_kept its :
  Forall Guidelines.storable its → filter (λ b, b ≠ ""%string) (strip <$> its) = its.
Proof.
  induction 1 as [|it its (Hne & Hst & _) _ IH]; [done|].
  cbn [fmap list_fmap]. rewrite Hst, filter_cons_True by done.
  f_equal. exact IH.
Qed.

(** Whatever the ledger file holds, the items [load] reads from it are
    non-empty single lines with no whitespace at their ends; so saving
    them and loading again gives the same items. *)
Theorem loaded_ledger_is_stable content :
  let its := Guidelines.load_text content in
  Forall Guidelines.storable its
  ∧ Guidelines.load_text (Guidelines.save_text its) = its.
Proof.
  intros its. pose proof (load_text_storable content) as Hst.
  split; [exact Hst|]. fold its in Hst.
  unfold Guidelines.load_text at 1. unfold Guidelines.save_text.
  rewrite header_blocks by (by apply bullets_lack_cr).
  rewrite bullets_blocks by done. by apply storable_kept.
Qed.

End Reload.

(** ** The deduplicating merge *)

Section MergeFacts.

Lemma merged_known (its new : list string) :
  (∀ g, g ∈ new → g ∈ its) → Guidelines.merged its new = its.
Proof.
  unfold Guidelines.merged. revert its.
  induction new as [|x new IH]; intros its H; [done|].
  cbn [foldl]. rewrite decide_True by (apply H; left).
  apply IH. intros g Hg. apply H. by right.
Qed.

Lemma length_merged (its new : list string) :
  (length (Guidelines.merged its new) ≤ length its + length new)%nat.
Proof.
  unfold Guidelines.merged. revert its.
  induction new as [|x new IH]; intros its; [cbn; lia|].
  cbn [foldl length]. case_decide.
  - specialize (IH its). lia.
  - specialize (IH (its ++ [x])). rewrite length_app in IH. cbn in IH. lia.
Qed.

(** The merge of lines 557-560 is a union that keeps the order: the
    result holds exactly the old items and the new ones, it grows by at
    most the number of new ones, and merging the same batch once more
    changes nothing. *)
Theorem merge_is_idempotent_union (its new : list string) :
  let m := Guidelines.merged its new in
  (∀ g, g ∈ m ↔ g ∈ its ∨ g ∈ new)
  ∧ (length m ≤ length its + length new)%nat
  ∧ Guidelines.merged m new = m.
Proof.
  intros m. split_and!.
  - intros g. apply elem_of_merged.
  - apply length_merged.
  - apply merged_known. intros g Hg. apply elem_of_merged. by right.
Qed.

End MergeFacts.

(** ** Lines the commit discovery cannot read *)

Section DiscoveryEdges.

Lemma lacks_all_chars c s :
  lacks c s = all_chars (λ a, negb (ascii_eqb a c)) s.
Proof. induction s as [|a s IH]; [done|]. cbn. by rewrite IH. Qed.

Lemma split_once_lacks sep s :
  lacks sep s = true → split_once sep s = (s, None).
Proof. rewrite lacks_all_chars. apply split_once_none. Qed.

Lemma split_once_found sep s :
  lacks sep s = false → ∃ a b, split_once sep s = (a, Some b).
Proof.
  induction s as [|c s IH]; [done|]. cbn [lacks split_once].
  destruct (ascii_eqb c sep); [by eexists _, _|].
  intros H. destruct (IH H) as (a & b & ->). by eexists _, _.
Qed.

Lemma split_once_fst_lacks sep s : lacks sep (split_once sep s).1 = true.
Proof.
  induction s as [|c s IH]; [done|]. cbn [split_once].
  destruct (ascii_eqb c sep) eqn:Hc; [done|].
  destruct (split_once sep s) as [a b]. cbn [fst lacks] in *.
  by rewrite Hc, IH.
Qed.

Lemma parse_line_None line :
  Detect.parse_line line = None
  ↔ strip line ≠ ""%string ∧ lacks "|" (strip line) = true.
Proof.
  unfold Detect.parse_line. cbv zeta.
  case_decide as Hl; [split; [done | by intros [? _]]|].
  unfold split2. destruct (lacks "|" (strip line)) eqn:Hb.
  - rewrite split_once_lacks by done. done.
  - destruct (split_once_found _ _ Hb) as (a & b & ->).
    destruct (split_once "|" b) as [b' [r'|]]; cbn [take app];
      repeat case_decide; split; try done; by intros [_ ?].
Qed.

Lemma parse_line_Some line p :
  Detect.parse_line line = Some (Some p) → pair_shape p.
Proof.
  unfold Detect.parse_line, pair_shape. cbv zeta.
  case_decide as Hl; [done|]. unfold split2.
  pose proof (split_once_fst_lacks "|" (strip line)) as H1.
  destruct (split_once "|" (strip line)) as [a [b|]]; [|done].
  pose proof (split_once_fst_lacks "|" b) as H2.
  destruct (split_once "|" b) as [b' [r'|]]; cbn [take app fst] in *.
  - pose proof (split_once_fst_lacks " " r') as H3.
    repeat case_decide; intros ?; simplify_eq/=; done.
  - repeat case_decide; intros ?; simplify_eq/=; done.
Qed.

Lemma parse_lines_None lines :
  Detect.parse_lines lines = None
  ↔ Exists (λ l, Detect.parse_line l = None) lines.
Proof.
  induction lines as [|l lines IH]; cbn [Detect.parse_lines].
  - split; [done | by intros ?%Exists_nil].
  - rewrite Exists_cons, <- IH.
    destruct (Detect.parse_line l), (Detect.parse_lines lines);
      split; try done; try tauto; intros [?|?]; done.
Qed.

Lemma parse_lines_Some lines pairs :
  Detect.parse_lines lines = Some pairs →
  Forall pair_shape pairs ∧ (length pairs ≤ length lines)%nat.
Proof.
  revert pairs. induction lines as [|l lines IH]; intros pairs H.
  - injection H as <-. by split.
  - cbn [Detect.parse_lines] in H.
    destruct (Detect.parse_line l) as [r|] eqn:Hl; [|done].
    destruct (Detect.parse_lines lines) as [ps|]; [|done].
    destruct (IH ps eq_refl) as [Hall Hlen].
    injection H as <-. destruct r as [p|]; cbn [length].
    + split; [|lia]. constructor; [by eapply parse_line_Some | done].
    + split; [done | lia].
Qed.

(** The discovery raises exactly when the log output has a line that
    is not blank and holds no vertical bar: the unpacking of line 147
    then gets two values for three names. *)
Theorem discovery_raises_on_line_without_bar out :
  Detect.pairs_of_log out = None
  ↔ Exists (λ line, strip line ≠ ""%string ∧ lacks "|" (strip line) = true)
      (splitlines out).
Proof.
  unfold Detect.pairs_of_log. rewrite parse_lines_None.
  induction (splitlines out) as [|line lines IH].
  - by rewrite !Exists_nil.
  - by rewrite !Exists_cons, IH, parse_line_None.
Qed.

(** Every scenario built from a log output has a parent commit that
    is not empty and holds no space, and a fix commit and a subject that
    hold no vertical bar; there are at most as many scenarios as lines. *)
Theorem scenarios_have_a_parent names diffs out scs :
  build_scenarios names diffs out = Some scs →
  Forall (λ sc, parent_commit sc ≠ ""%string
                ∧ lacks " " (parent_commit sc) = true
                ∧ lacks "|" (fix_commit sc) = true
                ∧ lacks "|" (subject sc) = true
                ∧ files_changed sc = names (parent_commit sc) (fix_commit sc)
                ∧ human_diff sc = diffs (parent_commit sc) (fix_commit sc))
    scs
  ∧ (length scs ≤ length (splitlines out))%nat.
Proof.
  unfold build_scenarios, Detect.pairs_of_log.
  destruct (Detect.parse_lines (splitlines out)) as [pairs|] eqn:Hp; [|done].
  intros H. injection H as <-.
  apply parse_lines_Some in Hp as [Hall Hlen].
  rewrite length_map. split; [|done].
  apply Forall_map. eapply Forall_impl; [exact Hall|].
  intros [[parent fix_] subj] (? & ? & ? & ?). cbn in *. done.
Qed.

End DiscoveryEdges.

(** ** Counting the lines of a diff and listing changed files *)

Section DiffFacts.

Lemma all_chars_lstrip f s :
  all_chars f s = true → all_chars f (lstrip s) = true.
Proof.
  induction s as [|a s IH]; [done|]. intros H. cbn [lstrip].
  destruct (is_space a); [|done].
  cbn [all_chars] in H. apply andb_true_iff in H as [_ H]. by apply IH.
Qed.

Lemma all_chars_rstrip f s :
  all_chars f s = true → all_chars f (rstrip s) = true.
Proof.
  induction s as [|a s IH]; [done|]. intros H.
  cbn [all_chars] in H. apply andb_true_iff in H as [Ha H].
  rewrite rstrip_cons. specialize (IH H).
  destruct (rstrip s) as [|b r].
  - destruct (is_space a); [done|]. cbn [all_chars]. by rewrite Ha.
  - cbn [all_chars] in *. by rewrite Ha, IH.
Qed.

Lemma splitlines_no_linebreak s :
  Forall (λ l, all_chars (λ c, negb (is_linebreak c)) l = true)
    (splitlines s).
Proof.
  induction s as [s IH] using string_length_ind.
  destruct s as [|c s]; [constructor|]. cbn [splitlines].
  destruct (is_linebreak c) eqn:Hc.
  - destruct s as [|c2 s]; [by repeat constructor|].
    destruct (ascii_eqb c CR && ascii_eqb c2 LF);
      (constructor; [done|]); apply IH; cbn; lia.
  - specialize (IH s (Nat.lt_succ_diag_r _)).
    destruct (splitlines s) as [|l ls]; [repeat constructor; cbn; by rewrite Hc|].
    apply Forall_cons in IH as [Hl Hls].
    constructor; [|done]. cbn [all_chars]. by rewrite Hc, Hl.
Qed.

(** The list of changed files holds no blank name: every name is not
    empty, has no whitespace at its ends and holds no line boundary; and
    there are at most as many names as lines of output. *)
Theorem changed_files_are_clean out :
  Forall (λ name, name ≠ ""%string ∧ strip name = name
                  ∧ all_chars (λ c, negb (is_linebreak c)) name = true)
    (git_diff_name_only out)
  ∧ (length (git_diff_name_only out) ≤ length (splitlines out))%nat.
Proof.
  unfold git_diff_name_only. split.
  - apply Forall_fmap, Forall_forall.
    intros line [Hne Hin]%list_elem_of_filter. cbn.
    split_and!; [done | apply strip_idem |].
    unfold strip. apply all_chars_rstrip, all_chars_lstrip.
    pose proof (splitlines_no_linebreak out) as Hall.
    rewrite Forall_forall in Hall. by apply Hall.
  - rewrite length_fmap. apply length_filter.
Qed.

Lemma startswith_plus_minus l :
  startswith l "+" = true → startswith l "-" = false.
Proof.
  destruct l as [|c l]; [done|]. unfold startswith. cbn [strip_prefix].
  unfold ascii_eqb. repeat case_bool_decide; by simplify_eq.
Qed.

(** No line of a diff is counted both as added and as removed: the
    two counts together never exceed the number of lines. *)
Theorem diff_counts_bounded diff_text :
  ((count_diff_lines diff_text).1 + (count_diff_lines diff_text).2
   ≤ length (splitlines diff_text))%nat.
Proof.
  unfold count_diff_lines. cbn [fst snd].
  induction (splitlines diff_text) as [|l ls IH]; [done|].
  rewrite !filter_cons. cbn [length].
  destruct (startswith l "+") eqn:Hp;
    [rewrite (startswith_plus_minus l Hp)|]; cbn [andb];
    repeat case_decide; cbn [length]; try lia;
    match goal with H : Is_true false |- _ => destruct H end.
Qed.

End DiffFacts.

(** ** The slices [read_file_bytes] keeps *)

Section ReadFile.

Variable decode : list Byte.byte → string.
Variable snip : string.

(** A file longer than a positive [max_bytes] is cut into a head, a
    middle that is dropped and is not empty, and a tail: the text is the
    decoded head, the marker and the decoded tail, and head and tail hold
    [max_bytes] bytes together. *)
Theorem read_file_bytes_keeps_both_ends data max_bytes :
  0 < max_bytes → max_bytes < Z.of_nat (length data) →
  ∃ head middle tail,
    data = head ++ middle ++ tail
    ∧ middle ≠ []
    ∧ Z.of_nat (length head) = max_bytes `div` 2
    ∧ Z.of_nat (length head + length tail) = max_bytes
    ∧ read_file_bytes decode snip (Some data) max_bytes
      = (decode head +:+ snip +:+ decode tail).
Proof.
  intros Hpos Hlt. unfold read_file_bytes, Bytes.upto, Bytes.from.
  rewrite decide_True by done.
  assert (0 ≤ max_bytes `div` 2
          ∧ (- max_bytes) `div` 2 < 0
          ∧ max_bytes `div` 2 + - ((- max_bytes) `div` 2) = max_bytes)
    as (Hh0 & Ht0 & Hsum) by (Z.div_mod_to_equations; lia).
  rewrite decide_True, decide_False by lia.
  set (h := Z.to_nat (max_bytes `div` 2)).
  set (k := Z.to_nat (Z.of_nat (length data) + (- max_bytes) `div` 2)).
  assert (h ≤ k ∧ k < length data ∧ h < k)%nat as (Hhk & Hk & Hh) by lia.
  exists (take h data), (take (k - h) (drop h data)), (drop k data).
  split_and!.
  - rewrite <- (take_drop h data) at 1. f_equal.
    rewrite <- (take_drop (k - h) (drop h data)) at 1. f_equal.
    rewrite drop_drop. f_equal. lia.
  - intros Hnil%(f_equal length).
    rewrite length_take, length_drop in Hnil. cbn in Hnil. lia.
  - rewrite length_take. lia.
  - rewrite length_take, length_drop. lia.
  - reflexivity.
Qed.

(** With [max_bytes = 0] nothing is cut from a file that is not
    empty: [data[-0:]] is the whole file, which follows the marker. *)
Theorem read_file_bytes_zero_keeps_all data :
  data ≠ [] →
  read_file_bytes decode snip (Some data) 0
  = (decode [] +:+ snip +:+ decode data).
Proof.
  intros Hne. unfold read_file_bytes, Bytes.upto, Bytes.from.
  rewrite decide_True by (destruct data; [done | cbn; lia]).
  change (0 `div` 2) with 0. change ((- 0) `div` 2) with 0.
  rewrite !decide_True by done. by rewrite take_0, drop_0.
Qed.

End ReadFile.

(** ** The stages of a scenario *)

Section Stages.

Variable cfg : Config.
Variable E : Env.

Lemma attempt_loop_added round sc attempts w l w' l' :
  attempt_loop cfg E round sc attempts (w, l) = (w', l') →
  ∃ evs, trace w' = trace w ++ evs
         ∧ items w' = items w ∧ files w' = files w.
Proof.
  intros H. apply attempt_loop_spec in H as (evs & ? & ? & ? & _).
  by exists evs.
Qed.

Lemma tail_attempts_eq sc r l1 w' out w2 l2 l3 ea rest l' brk :
  attempt_loop cfg E (Some r) sc
    (range 1 (max_fix_attempts_per_bug cfg + 1)) (w2, l2) = (w', l3) →
  trace w' = trace w2 ++ ea →
  success l2 = false → refine_success l2 = refine_success l1 →
  log_buf l2 = log_buf l1 →
  rest = [EvCheckout (parent_commit sc) true;
          EvRunTests (clean_at (parent_commit sc)) false out;
          EvLoadContext (clean_at (parent_commit sc))] ++ ea →
  l' = (if success l3 then set_refine_success true l3 else l3) →
  brk = success l3 →
  round_tail cfg E sc r l1 w' rest l' brk.
Proof. intros ? ? ? ? ? -> -> ->. by eapply tail_attempts. Qed.

Lemma refine_body_shape sc r w l w' l' brk :
  refine_body cfg E sc r (w, l) = (w', l', brk) →
  let out :=
    llm_ref E (trace w)
      (RefinerPrompt sc (last_agent_diff l) (failing_info l)
         (Guidelines.as_bullets (items w))) in
  let gs := Refiner.parse (json_loads E) (strip out) in
  ∃ saved note rest,
    trace w' =
      trace w ++
      EvRefine (RefinerPrompt sc (last_agent_diff l) (failing_info l)
                  (Guidelines.as_bullets (items w))) out
      :: saved ++ EvCleanWorktree :: rest
    ∧ items w' = Guidelines.merged (items w) gs
    ∧ (gs = [] ∧ saved = [] ∧ files w' = files w
       ∨ gs ≠ []
         ∧ saved = [EvSaveGuidelines (guidelines_file cfg)
                      (Guidelines.save_text (items w'))]
         ∧ files w' = <[guidelines_file cfg :=
                          Guidelines.save_text (items w')]> (files w))
    ∧ round_tail cfg E sc r (log note l) w' rest l' brk.
Proof.
  unfold refine_body, refine, merge_guidelines, save_guidelines,
    git_checkout_detached, ensure_clean_worktree, run_tests,
    load_code_context.
  cbn [emit set_tree set_items write_text trace tree items files].
  intros H.
  repeat case_match; simplify_eq/=.
  all: try match goal with
       | H : attempt_loop _ _ _ _ _ _ = _ |- _ =>
           pose proof (attempt_loop_added _ _ _ _ _ _ _ H)
             as (ea & Htr & Hit & Hfi);
           cbn [emit set_tree set_items write_text trace tree items files]
             in Htr, Hit, Hfi;
           rewrite Htr, Hit, Hfi
       end.
  all: first
    [ eexists [], _, _; split;
      [rewrite <- !app_assoc; cbn [app]; reflexivity|]
    | eexists [_], _, _; split;
      [rewrite <- !app_assoc; cbn [app]; reflexivity|] ].
  all: split; [reflexivity|].
  all: split; [first [ left; by split_and! | right; by split_and! ]|].
  all: first
    [ by apply tail_checkout_failed
    | by apply tail_baseline_passes
    | eapply tail_attempts_eq;
      [ eassumption | | | | | reflexivity | | ];
      cbn [success refine_success log_buf log set_success set_code_ctx
           set_last_agent_diff set_failing_info];
      first [ reflexivity | done | idtac ] ].
  all: match goal with H : success _ = _ |- _ => by rewrite H end.
Qed.

Lemma refine_loop_added sc rounds w l w' l' :
  refine_loop cfg E sc rounds (w, l) = (w', l') →
  ∃ evs, trace w' = trace w ++ evs.
Proof.
  revert w l. induction rounds as [|r rest IH]; intros w l H.
  - injection H as <- <-. exists []. by rewrite app_nil_r.
  - cbn [refine_loop] in H.
    destruct (refine_body cfg E sc r (w, l)) as [[w1 l1] brk] eqn:Hbody.
    apply refine_body_shape in Hbody as (saved & note & tl & Htr & _).
    destruct brk.
    + injection H as <- <-. by eexists.
    + apply IH in H as (evs & ->). rewrite Htr, <- app_assoc. by eexists.
Qed.

Lemma process_scenario_shape_ex sc w :
  ∃ evs,
    trace (process_scenario cfg E sc w) = trace w ++ evs
    ∧ scenario_shape cfg E sc w (process_scenario cfg E sc w) evs.
Proof.
  unfold process_scenario, git_checkout_detached, ensure_clean_worktree,
    run_tests, load_code_context.
  cbn [emit set_tree set_items write_text trace tree items files].
  repeat case_match; simplify_eq/=.
  all: repeat match goal with
       | H : attempt_loop _ _ _ _ _ _ = _ |- _ =>
           let ea := fresh "ea" in
           let Htr := fresh "Htr" in
           pose proof (attempt_loop_added _ _ _ _ _ _ _ H)
             as (ea & Htr & _ & _);
           cbn [emit set_tree trace tree items files] in Htr;
           revert H
       | H : refine_loop _ _ _ _ _ = _ |- _ =>
           let er := fresh "er" in
           let Htr := fresh "Htr" in
           pose proof (refine_loop_added _ _ _ _ _ _ H) as (er & Htr);
           revert H
       end; intros.
  - eexists. split; [rewrite <- !app_assoc; reflexivity|].
    by apply shape_already_passing.
  - eexists. split; [rewrite Htr, <- !app_assoc; reflexivity|].
    eapply shape_fixed; try eassumption; reflexivity.
  - match goal with
    | H : negb _ = true |- _ =>
        replace (log_buf l0 ++ [LogFailed]) with (final_log l0)
          by (unfold final_log; by rewrite H)
    end.
    eexists. split; [rewrite Htr0, Htr, <- !app_assoc; reflexivity|].
    eapply shape_refined; try eassumption; reflexivity.
  - match goal with
    | H : negb _ = false |- _ =>
        replace (log_buf l0) with (final_log l0)
          by (unfold final_log; by rewrite H)
    end.
    eexists. split; [rewrite Htr0, Htr, <- !app_assoc; reflexivity|].
    eapply shape_refined; try eassumption; reflexivity.
  - eexists. split; [rewrite <- !app_assoc; reflexivity|].
    by apply shape_checkout_failed.
Qed.

Lemma process_scenario_shape sc w :
  trace (process_scenario cfg E sc w) = trace w ++ scenario_events cfg E sc w
  ∧ scenario_shape cfg E sc w (process_scenario cfg E sc w)
      (scenario_events cfg E sc w).
Proof.
  destruct (process_scenario_shape_ex sc w) as (evs & Htr & Hshape).
  unfold scenario_events. rewrite Htr, drop_app_length. by split.
Qed.

End Stages.

(** ** Counts, ledger and outcome, stage by stage *)

Section StageFacts.

Variable cfg : Config.
Variable E : Env.

Lemma count_of_attempt_events f evs :
  (∀ e, is_attempt_event e = true → f e = false) →
  Forall (λ e, is_attempt_event e = true) evs → count_of f evs = 0%nat.
Proof.
  intros Hf H. apply count_of_none. eapply Forall_impl; [exact H|].
  intros e. apply Hf.
Qed.

Lemma patched_pass_touch d t out :
  patched_pass (EvRunTests (touch d t) true out) = true.
Proof.
  cbn. apply bool_decide_eq_true_2. intros H%(f_equal length).
  rewrite length_app in H. cbn in H. lia.
Qed.

Lemma after_tests_log round attempt proposed out2 passed2 l :
  log_buf l `prefix_of`
    log_buf (after_tests round attempt proposed out2 passed2 l).
Proof.
  destruct passed2, round; cbn; rewrite <- ?app_assoc; by apply prefix_app_r.
Qed.

Lemma after_tests_marker round attempt proposed out2 l :
  ∃ m, last (log_buf (after_tests round attempt proposed out2 true l))
       = Some m ∧ Log.is_success m = true.
Proof. destruct round; cbn; eexists; by rewrite last_snoc. Qed.

Lemma attempt_case_facts round attempt head proposed l evs l' brk p r :
  attempt_case round attempt head proposed l evs l' brk →
  attempts_facts 1 l l' (EvPropose p r :: evs)
  ∧ (brk = false → success l' = success l).
Proof.
  intros Hc.
  destruct Hc as [appr Ha|appr Ha|appr passed2 out2 Ha]; destruct Ha.
  1-4: split; [|done]; split; cbn; try lia; try done;
       try (by repeat constructor); intros _; left; by split.
  all: split; [|intros ->; by rewrite after_tests_success].
  all: split; cbn [app count_of is_propose is_test];
       [ lia | lia | repeat (apply List.Forall_cons; [reflexivity|]); apply List.Forall_nil
       | exact (after_tests_log _ _ _ _ _ (set_last_agent_diff proposed l))
       | by rewrite after_tests_refine_success | ].
  all: intros Hs; destruct passed2;
       [ right | left; split;
                 [by rewrite after_tests_success | reflexivity] ].
  all: split; [by rewrite after_tests_success|].
  all: destruct (after_tests_marker round attempt proposed out2
                   (set_last_agent_diff proposed l)) as (m & Hm & Hs').
  - eexists [EvPropose p r; EvCleanWorktree;
             EvApplyPatch (clean_at head) proposed true], _, _, m.
    split_and!; [reflexivity | apply patched_pass_touch | reflexivity
                | exact Hm | exact Hs'].
  - eexists [EvPropose p r; EvApproval proposed answer; EvCleanWorktree;
             EvApplyPatch (clean_at head) proposed true], _, _, m.
    split_and!; [reflexivity | apply patched_pass_touch | reflexivity
                | exact Hm | exact Hs'].
Qed.

Lemma attempt_loop_facts round sc attempts w l w' l' :
  attempt_loop cfg E round sc attempts (w, l) = (w', l') →
  ∃ evs,
    trace w' = trace w ++ evs
    ∧ attempts_facts (length attempts) l l' evs.
Proof.
  revert w l. induction attempts as [|attempt rest IH]; intros w l H.
  - injection H as <- <-. exists []. rewrite app_nil_r. split; [done|].
    split; cbn; try done. intros Hs. by left.
  - cbn [attempt_loop] in H.
    destruct (attempt_body cfg E round sc attempt (w, l))
      as [[w1 l1] brk] eqn:Hbody.
    apply attempt_body_spec in Hbody
      as (response & evs & Htr & _ & _ & _ & Hcase).
    apply (attempt_case_facts _ _ _ _ _ _ _ _
             (FixerPrompt (Guidelines.as_bullets (items w)) sc
                (failing_info l) (code_ctx l)) response) in Hcase
      as [[Hp1 Ht1 He1 Hl1 Hr1 Ho1] Hgo].
    destruct brk.
    + injection H as <- <-. eexists. split; [exact Htr|].
      split; cbn [length]; try done; lia.
    + apply IH in H as (evs2 & Htr2 & [Hp2 Ht2 He2 Hl2 Hr2 Ho2]).
      eexists. split; [rewrite Htr2, Htr, <- app_assoc; reflexivity|].
      specialize (Hgo eq_refl).
      split; cbn [length]; rewrite ?count_of_app.
      * lia.
      * lia.
      * by apply Forall_app.
      * by etrans.
      * congruence.
      * intros Hs. destruct (Ho1 Hs) as [[_ Hc1]|[Hs1 _]]; [|congruence].
        destruct Ho2 as [[? Hc2]|[? (pre & t & out & m & -> & ? & ? & ? & ?)]];
          [congruence | left | right].
        -- split; [done|]. lia.
        -- split; [done|].
           exists ((EvPropose
                      (FixerPrompt (Guidelines.as_bullets (items w)) sc
                         (failing_info l) (code_ctx l)) response :: evs)
                   ++ pre), t, out, m.
           rewrite app_assoc.
           split_and!; [done | done | rewrite count_of_app; lia | done | done].
Qed.

Lemma parse_length loads out : (length (Refiner.parse loads out) ≤ 4)%nat.
Proof.
  unfold Refiner.parse. repeat case_match; rewrite length_take; lia.
Qed.

Lemma rounds_facts_nil g k w l : rounds_facts g k 0 w w l l [].
Proof. split; cbn; try done; try lia. intros ? ?. by left. Qed.

Lemma rounds_facts_more g k n m w w' l l' evs :
  (n ≤ m)%nat → rounds_facts g k n w w' l l' evs →
  rounds_facts g k m w w' l l' evs.
Proof. intros Hnm []. split; try done; nia. Qed.

Lemma rounds_facts_app g k n1 n2 w w1 w2 l l1 l2 e1 e2 :
  rounds_facts g k n1 w w1 l l1 e1 →
  rounds_facts g k n2 w1 w2 l1 l2 e2 →
  (success l = false → refine_success l = false →
   success l1 = false ∧ refine_success l1 = false) →
  rounds_facts g k (n1 + n2) w w2 l l2 (e1 ++ e2).
Proof.
  intros [Hp1 Hr1 Ht1 Hs1 Hw1 Hx1 Hn1 Hg1 Hu1 Hv1 Hl1 Ho1]
         [Hp2 Hr2 Ht2 Hs2 Hw2 Hx2 Hn2 Hg2 Hu2 Hv2 Hl2 Ho2] Hgo.
  split; rewrite ?count_of_app.
  - nia.
  - lia.
  - nia.
  - lia.
  - lia.
  - by etrans.
  - auto.
  - lia.
  - intros H. destruct Hu1 as [<- <-]; [lia|]. apply Hu2. lia.
  - intros H. destruct (decide (count_of is_save e2 = 0%nat)) as [H2|H2].
    + destruct (Hu2 H2) as [-> ->]. apply Hv1. lia.
    + rewrite (Hv2 H2).
      destruct (decide (count_of is_save e1 = 0%nat)) as [H1|H1].
      * by destruct (Hu1 H1) as [_ ->].
      * by rewrite (Hv1 H1), insert_insert_eq.
  - by etrans.
  - intros Hs Hr. destruct (Hgo Hs Hr) as [Hs' Hr'].
    destruct (Ho1 Hs Hr) as [(_ & _ & Hc1)|[? _]]; [|congruence].
    destruct (Ho2 Hs' Hr')
      as [(? & ? & Hc2)|[? (pre & t & out & m & -> & ? & ? & ? & ?)]].
    + left. split_and!; [done | done | lia].
    + right. split; [done|]. exists (e1 ++ pre), t, out, m.
      rewrite app_assoc.
      split_and!; [done | done | rewrite count_of_app; lia | done | done].
Qed.

Lemma refine_body_facts sc r w l w' l' brk :
  refine_body cfg E sc r (w, l) = (w', l', brk) →
  ∃ evs,
    trace w' = trace w ++ evs
    ∧ rounds_facts (guidelines_file cfg)
        (Z.to_nat (max_fix_attempts_per_bug cfg)) 1 w w' l l' evs
    ∧ (brk = false →
       success l' = false ∧ refine_success l' = refine_success l).
Proof.
  intros H.
  apply refine_body_shape in H
    as (saved & note & rest & Htr & Hit & Hfiles & Htail).
  eexists. split; [exact Htr|].
  assert (items w `prefix_of` items w') as Hpre
    by (rewrite Hit; apply merged_prefix).
  assert (NoDup (items w) → NoDup (items w')) as Hnd
    by (rewrite Hit; apply merged_NoDup).
  assert (length (items w') ≤ length (items w) + 4)%nat as Hlen.
  { rewrite Hit. etrans; [apply length_merged|].
    apply Nat.add_le_mono_l, parse_length. }
  assert (saved = [] ∧ items w' = items w ∧ files w' = files w
          ∨ saved = [EvSaveGuidelines (guidelines_file cfg)
                       (Guidelines.save_text (items w'))]
            ∧ files w' = <[guidelines_file cfg :=
                             Guidelines.save_text (items w')]> (files w))
    as Hsaved.
  { destruct Hfiles as [(Hgs & -> & Hf)|(Hgs & -> & Hf)]; [left|by right].
    rewrite Hgs in Hit. by split_and!. }
  clear Hit Hfiles.
  destruct Htail as [|out|out w2 l2 l3 ea Hloop Htr2 Hs2 Hr2 Hl2].
  3: apply attempt_loop_facts in Hloop
       as (ea' & Htr3 & [Hp Ht He Hl Hr Ho]);
     rewrite Htr2 in Htr3; apply app_inv_head in Htr3 as <-;
     rewrite length_range in Hp, Ht;
     replace (Z.to_nat (max_fix_attempts_per_bug cfg + 1 - 1))
       with (Z.to_nat (max_fix_attempts_per_bug cfg)) in Hp, Ht by lia;
     pose proof (count_of_attempt_events is_refine ea
                   ltac:(by intros []) He) as Hq1;
     pose proof (count_of_attempt_events is_save ea
                   ltac:(by intros []) He) as Hq2;
     pose proof (count_of_attempt_events is_write_log ea
                   ltac:(by intros []) He) as Hq3.
  all: destruct Hsaved as [(-> & Hi & Hf)|(-> & Hf)].
  all: split; [split|];
       cbn [app count_of is_propose is_refine is_test is_save is_write_log
            patched_pass];
       rewrite ?count_of_app;
       try done; try lia.
  all: try (cbn; repeat apply prefix_app_r; done).
  all: try (intros ? ?; left; done).
  all: try (destruct (success l3); cbn [log_buf set_refine_success];
            (etrans; [|exact Hl]); rewrite Hl2; by apply prefix_app_r).
  all: try (intros Hs3; rewrite Hs3; split; [done|];
            by rewrite Hr, Hr2).
  all: intros Hs Hrs;
       destruct (Ho Hs2)
         as [[Hs3 Hc]|[Hs3 (pre & t & o & m & -> & Hpp & Hc & Hlast & Hm)]];
       rewrite Hs3;
       [ left; split_and!; [done | by rewrite Hr, Hr2 | lia] | right ];
       (split; [done|]).
  - eexists (_ :: _ :: _ :: _ :: _ :: pre), t, o, m.
    split_and!; [reflexivity | exact Hpp | cbn; lia | exact Hlast | exact Hm].
  - eexists (_ :: _ :: _ :: _ :: _ :: _ :: pre), t, o, m.
    split_and!; [reflexivity | exact Hpp | cbn; lia | exact Hlast | exact Hm].
Qed.

Lemma refine_loop_facts sc rounds w l w' l' :
  refine_loop cfg E sc rounds (w, l) = (w', l') →
  ∃ evs,
    trace w' = trace w ++ evs
    ∧ rounds_facts (guidelines_file cfg)
        (Z.to_nat (max_fix_attempts_per_bug cfg)) (length rounds)
        w w' l l' evs.
Proof.
  revert w l. induction rounds as [|r rest IH]; intros w l H.
  - injection H as <- <-. exists []. rewrite app_nil_r. split; [done|].
    apply rounds_facts_nil.
  - cbn [refine_loop] in H.
    destruct (refine_body cfg E sc r (w, l)) as [[w1 l1] brk] eqn:Hbody.
    apply refine_body_facts in Hbody as (e1 & Htr & Hf1 & Hgo).
    destruct brk.
    + injection H as <- <-. exists e1. split; [done|].
      eapply rounds_facts_more; [|exact Hf1]. cbn. lia.
    + apply IH in H as (e2 & Htr2 & Hf2).
      exists (e1 ++ e2). rewrite Htr2, Htr, app_assoc. split; [done|].
      change (length (r :: rest)) with (1 + length rest)%nat.
      eapply rounds_facts_app; [exact Hf1 | exact Hf2 |].
      intros _ Hrs. destruct (Hgo eq_refl) as [? ?]. split; congruence.
Qed.

End StageFacts.

(** ** What a scenario does as a whole *)

Ltac stage_facts :=
  repeat match goal with
    | H : attempt_loop ?cfg _ _ _ _ (?w1, _) = (?w2, _),
      Htr : trace ?w2 = trace ?w1 ++ ?ea |- _ =>
        let ea' := fresh "ea" in
        let Htr' := fresh "Htr" in
        let Hit := fresh "Hitems" in
        let Hfi := fresh "Hfiles" in
        let Hf := fresh "Hattempts" in
        pose proof (attempt_loop_added _ _ _ _ _ _ _ _ _ H)
          as (ea' & Htr' & Hit & Hfi);
        clear ea' Htr';
        apply attempt_loop_facts in H as (ea' & Htr' & Hf);
        rewrite Htr in Htr'; apply app_inv_head in Htr' as <-;
        rewrite length_range in Hf;
        replace (Z.to_nat (max_fix_attempts_per_bug cfg + 1 - 1))
          with (Z.to_nat (max_fix_attempts_per_bug cfg)) in Hf by lia
    | H : refine_loop ?cfg _ _ _ (?w1, _) = (?w2, _),
      Htr : trace ?w2 = trace ?w1 ++ ?er |- _ =>
        let er' := fresh "er" in
        let Htr' := fresh "Htr" in
        let Hf := fresh "Hrounds" in
        apply refine_loop_facts in H as (er' & Htr' & Hf);
        rewrite Htr in Htr'; apply app_inv_head in Htr' as <-;
        rewrite length_range in Hf;
        replace (Z.to_nat (max_refine_iterations_per_bug cfg + 1 - 1))
          with (Z.to_nat (max_refine_iterations_per_bug cfg)) in Hf by lia
    end.

Section ScenarioFacts.

Variable cfg : Config.
Variable E : Env.

Lemma scenario_counts sc w :
  let evs := scenario_events cfg E sc w in
  let a := Z.to_nat (max_fix_attempts_per_bug cfg) in
  let r := Z.to_nat (max_refine_iterations_per_bug cfg) in
  (count_propose evs ≤ a * (1 + r)
   ∧ count_of is_refine evs ≤ r
   ∧ count_of is_test evs ≤ (1 + a) * (1 + r)
   ∧ count_of is_save evs ≤ count_of is_refine evs
   ∧ count_of is_write_log evs ≤ 1)%nat.
Proof.
  intros evs a r. subst evs.
  destruct (process_scenario_shape cfg E sc w) as [_ Hshape].
  destruct Hshape; stage_facts.
  all: unfold count_propose, entry_events; rewrite ?count_of_app;
       cbn [app count_of is_propose is_refine is_test is_save is_write_log].
  1-2: lia.
  all: destruct Hattempts as [Hp Ht He _ _ _];
       pose proof (count_of_attempt_events is_refine ea
                     ltac:(by intros []) He);
       pose proof (count_of_attempt_events is_save ea
                     ltac:(by intros []) He);
       pose proof (count_of_attempt_events is_write_log ea
                     ltac:(by intros []) He).
  - fold a in Hp, Ht. split_and!; nia.
  - destruct Hrounds as [Hp2 Hr2 Ht2 Hs2 Hw2 _ _ _ _ _ _ _].
    fold a in Hp, Ht, Hp2, Ht2. fold r in Hp2, Hr2, Ht2.
    split_and!; nia.
Qed.

Lemma scenario_ledger sc w :
  let evs := scenario_events cfg E sc w in
  let w' := process_scenario cfg E sc w in
  items w `prefix_of` items w'
  ∧ (NoDup (items w) → NoDup (items w'))
  ∧ (length (items w') ≤ length (items w) + 4 * count_of is_refine evs)%nat.
Proof.
  intros evs w'. subst evs w'.
  destruct (process_scenario_shape cfg E sc w) as [_ Hshape].
  destruct Hshape as [Hi _|out Hi _
                      |out w1 l1 w2 l2 ea ? ? Hi1 _ _ _ _ _ Hw
                      |out w1 l1 w2 l2 w3 l3 ea er ? ? Hi1 _ _ _ _ _ ? ? Hw];
    stage_facts.
  1-2: rewrite Hi; split_and!; [done | done | lia].
  - rewrite Hw. cbn [write_log emit write_text items].
    rewrite Hitems, Hi1. split_and!; [done | done | lia].
  - rewrite Hw. cbn [write_log emit write_text items].
    destruct Hrounds as [_ _ _ _ _ Hx Hn Hg _ _ _ _].
    destruct Hattempts as [_ _ He _ _ _].
    rewrite Hitems, Hi1 in Hx, Hn, Hg.
    split_and!; [done | done |].
    rewrite !count_of_app. lia.
Qed.

(** Whatever the collaborators answer, one scenario calls the proposer at
    most maxAttempts * (1 + maxRefinements) times and the coach at most
    maxRefinements times; it runs the tests at most
    (1 + maxAttempts) * (1 + maxRefinements) times, saves the ledger at
    most once per coach call and writes at most one log. A negative
    budget counts as zero. *)
Theorem calls_within_budget sc w :
  let evs := scenario_events cfg E sc w in
  let a := Z.max 0 (max_fix_attempts_per_bug cfg) in
  let r := Z.max 0 (max_refine_iterations_per_bug cfg) in
  Z.of_nat (count_propose evs) ≤ a * (1 + r)
  ∧ Z.of_nat (count_of is_refine evs) ≤ r
  ∧ Z.of_nat (count_of is_test evs) ≤ (1 + a) * (1 + r)
  ∧ (count_of is_save evs ≤ count_of is_refine evs)%nat
  ∧ (count_of is_write_log evs ≤ 1)%nat.
Proof.
  intros evs a r. subst evs a r.
  pose proof (scenario_counts sc w) as H. cbv zeta in H.
  destruct H as (Hp & Hr & Ht & Hs & Hw).
  replace (Z.max 0 (max_fix_attempts_per_bug cfg))
    with (Z.of_nat (Z.to_nat (max_fix_attempts_per_bug cfg))) by lia.
  replace (Z.max 0 (max_refine_iterations_per_bug cfg))
    with (Z.of_nat (Z.to_nat (max_refine_iterations_per_bug cfg))) by lia.
  apply Nat2Z.inj_le in Hp, Hr, Ht.
  rewrite Nat2Z.inj_mul, Nat2Z.inj_add in Hp, Ht.
  rewrite Nat2Z.inj_add in Ht.
  by split_and!.
Qed.

(** Across a scenario the ledger only grows at its end: the old items
    stay a prefix of the new ones, distinct items stay distinct, and every
    coach call adds at most four items; a scenario without a coach call
    leaves the items as they were. *)
Theorem ledger_grows_by_coach_calls sc w :
  let evs := scenario_events cfg E sc w in
  let w' := process_scenario cfg E sc w in
  items w `prefix_of` items w'
  ∧ (NoDup (items w) → NoDup (items w'))
  ∧ (length (items w') ≤ length (items w) + 4 * count_of is_refine evs)%nat
  ∧ (count_of is_refine evs = 0%nat → items w' = items w).
Proof.
  intros evs w'. subst evs w'.
  pose proof (scenario_ledger sc w) as H. cbv zeta in H.
  destruct H as (Hpre & Hnd & Hlen). split_and!; try done.
  intros Hz. rewrite Hz in Hlen. symmetry.
  apply prefix_length_eq; [done | lia].
Qed.

(** When the log of the scenario is not written to the ledger's file, that
    file follows the items: a scenario that never saves leaves the items
    and the file as they were, and after one that saves the file holds
    the text of the current items. So a file that holds the items before
    the scenario holds them after it. *)
Theorem ledger_file_follows_items sc w :
  log_path cfg sc ≠ guidelines_file cfg →
  let evs := scenario_events cfg E sc w in
  let w' := process_scenario cfg E sc w in
  let g := guidelines_file cfg in
  (count_of is_save evs = 0%nat →
   items w' = items w ∧ files w' !! g = files w !! g)
  ∧ (count_of is_save evs ≠ 0%nat →
     files w' !! g = Some (Guidelines.save_text (items w')))
  ∧ (files w !! g = Some (Guidelines.save_text (items w)) →
     files w' !! g = Some (Guidelines.save_text (items w'))).
Proof.
  intros Hpath evs w' g.
  assert ((count_of is_save evs = 0%nat →
           items w' = items w ∧ files w' !! g = files w !! g)
          ∧ (count_of is_save evs ≠ 0%nat →
             files w' !! g = Some (Guidelines.save_text (items w'))))
    as [H0 H1].
  2:{ split_and!; [done | done |]. intros Hsync.
      destruct (decide (count_of is_save evs = 0%nat)) as [Hz|Hz].
      - destruct (H0 Hz) as [-> ->]. done.
      - by apply H1. }
  subst evs w' g.
  destruct (process_scenario_shape cfg E sc w) as [_ Hshape].
  destruct Hshape as [Hi Hf|out Hi Hf
                      |out w1 l1 w2 l2 ea ? ? Hi1 Hf1 _ _ _ _ Hw
                      |out w1 l1 w2 l2 w3 l3 ea er ? ? Hi1 Hf1 _ _ _ _ ? ?
                         Hw];
    stage_facts.
  1-2: rewrite Hi, Hf; split; [done | by cbn].
  all: destruct Hattempts as [_ _ He _ _ _];
       pose proof (count_of_attempt_events is_save ea
                     ltac:(by intros []) He) as Hq.
  - rewrite Hw. cbn [write_log emit write_text items files].
    rewrite lookup_insert_ne by done.
    rewrite Hitems, Hfiles, Hi1, Hf1. unfold entry_events.
    rewrite !count_of_app, Hq. split; [done | by cbn].
  - rewrite Hw. cbn [write_log emit write_text items files].
    rewrite lookup_insert_ne by done.
    destruct Hrounds as [_ _ _ _ _ _ _ _ Hu Hv _ _].
    rewrite Hitems, Hi1 in Hu. rewrite Hfiles, Hf1 in Hu, Hv.
    unfold entry_events.
    rewrite !count_of_app, Hq.
    cbn [count_of is_save Nat.add]. rewrite Nat.add_0_r. split.
    + intros Hz. destruct (Hu Hz) as [-> ->]. done.
    + intros Hz. rewrite (Hv Hz). apply lookup_insert_eq.
Qed.

Lemma last_app_cons {A} (pre : list A) x rest :
  last (pre ++ x :: rest) = last (x :: rest).
Proof.
  induction pre as [|a pre IH]; [done|].
  cbn [app]. destruct pre; exact IH.
Qed.


End ScenarioFacts.

(** ** Properties that hold stretch by stretch *)

Section WholeRun.

Variable cfg : Config.
Variable E : Env.

Lemma run_trace scs w :
  trace (loop_over_bug_scenarios cfg E scs w)
  = trace w ++ run_events cfg E scs w.
Proof.
  assert (∃ evs, trace (loop_over_bug_scenarios cfg E scs w)
                 = trace w ++ evs) as (evs & Htr).
  { revert w. induction scs as [|sc scs IH]; intros w.
    - exists []. by rewrite app_nil_r.
    - cbn [loop_over_bug_scenarios foldl].
      destruct (IH (process_scenario cfg E sc w)) as (evs & Htr).
      destruct (process_scenario_shape cfg E sc w) as [Hsc _].
      exists (scenario_events cfg E sc w ++ evs).
      unfold loop_over_bug_scenarios in Htr. by rewrite Htr, Hsc, app_assoc. }
  unfold run_events. by rewrite Htr, drop_app_length.
Qed.

Lemma run_events_nil w : run_events cfg E [] w = [].
Proof. unfold run_events. cbn. apply drop_all. Qed.

Lemma run_events_cons sc scs w :
  run_events cfg E (sc :: scs) w
  = scenario_events cfg E sc w
    ++ run_events cfg E scs (process_scenario cfg E sc w).
Proof.
  pose proof (run_trace (sc :: scs) w) as H1.
  pose proof (run_trace scs (process_scenario cfg E sc w)) as H2.
  destruct (process_scenario_shape cfg E sc w) as [Hsc _].
  change (loop_over_bug_scenarios cfg E (sc :: scs) w)
    with (loop_over_bug_scenarios cfg E scs (process_scenario cfg E sc w))
    in H1.
  rewrite H2, Hsc, <- app_assoc in H1. by apply app_inv_head in H1.
Qed.

Section Lift.

Variable P : list event → Prop.
Hypothesis P_nil : P [].
Hypothesis P_app : ∀ a b, P a → P b → P (a ++ b).
Hypothesis P_frame :
  ∀ e, is_frame_event e = true → is_save e = false → P [e].
Hypothesis P_save :
  ∀ h p content,
    Refiner.parse (json_loads E) (strip (llm_ref E h p)) ≠ [] →
    P [EvSaveGuidelines (guidelines_file cfg) content].
Hypothesis P_attempt :
  ∀ round sc attempt w l w' l' brk evs,
    attempt_body cfg E round sc attempt (w, l) = (w', l', brk) →
    trace w' = trace w ++ evs → P evs.

Lemma P_cons e evs :
  is_frame_event e = true → is_save e = false → P evs → P (e :: evs).
Proof. intros He Hs Hevs. apply (P_app [e]); auto. Qed.

Lemma lift_attempt_loop round sc attempts w l w' l' evs :
  attempt_loop cfg E round sc attempts (w, l) = (w', l') →
  trace w' = trace w ++ evs → P evs.
Proof.
  revert w l evs. induction attempts as [|attempt rest IH]; intros w l evs H.
  - injection H as <- <-. intros Htr.
    rewrite <- (app_nil_r (trace w)) in Htr at 1.
    apply app_inv_head in Htr as <-. exact P_nil.
  - cbn [attempt_loop] in H.
    destruct (attempt_body cfg E round sc attempt (w, l))
      as [[w1 l1] brk] eqn:Hbody.
    pose proof (attempt_body_spec _ _ _ _ _ _ _ _ _ _ Hbody)
      as (response & e1 & Htr1 & _).
    pose proof (P_attempt _ _ _ _ _ _ _ _ _ Hbody Htr1) as H1.
    destruct brk.
    + injection H as <- <-. intros Htr. rewrite Htr1 in Htr.
      apply app_inv_head in Htr as <-. exact H1.
    + destruct (attempt_loop_added _ _ _ _ _ _ _ _ _ H)
        as (e2 & Htr2 & _).
      intros Htr. rewrite Htr2, Htr1, <- app_assoc in Htr.
      apply app_inv_head in Htr as <-.
      apply P_app; [exact H1|]. by eapply IH.
Qed.

Lemma lift_refine_body sc r w l w' l' brk evs :
  refine_body cfg E sc r (w, l) = (w', l', brk) →
  trace w' = trace w ++ evs → P evs.
Proof.
  intros H Htr.
  apply refine_body_shape in H
    as (saved & note & rest & Htr1 & _ & Hsaved & Htail).
  rewrite Htr1 in Htr. apply app_inv_head in Htr as <-.
  apply P_cons; [done | done |]. apply P_app.
  { destruct Hsaved as [(_ & -> & _)|(Hgs & -> & _)];
      [done | by eapply P_save]. }
  apply P_cons; [done | done |].
  destruct Htail as [|out|out w2 l2 l3 ea Hloop Htr2 _ _ _].
  - by apply P_frame.
  - repeat (apply P_cons; [done | done |]). exact P_nil.
  - apply (P_app [_; _; _]).
    + repeat (apply P_cons; [done | done |]). exact P_nil.
    + by eapply lift_attempt_loop.
Qed.

Lemma lift_refine_loop sc rounds w l w' l' evs :
  refine_loop cfg E sc rounds (w, l) = (w', l') →
  trace w' = trace w ++ evs → P evs.
Proof.
  revert w l evs. induction rounds as [|r rest IH]; intros w l evs H.
  - injection H as <- <-. intros Htr.
    rewrite <- (app_nil_r (trace w)) in Htr at 1.
    apply app_inv_head in Htr as <-. exact P_nil.
  - cbn [refine_loop] in H.
    destruct (refine_body cfg E sc r (w, l)) as [[w1 l1] brk] eqn:Hbody.
    pose proof (refine_body_facts _ _ _ _ _ _ _ _ _ Hbody)
      as (e1 & Htr1 & _).
    pose proof (lift_refine_body _ _ _ _ _ _ _ _ Hbody Htr1) as H1.
    destruct brk.
    + injection H as <- <-. intros Htr. rewrite Htr1 in Htr.
      apply app_inv_head in Htr as <-. exact H1.
    + destruct (refine_loop_added _ _ _ _ _ _ _ _ H) as (e2 & Htr2).
      intros Htr. rewrite Htr2, Htr1, <- app_assoc in Htr.
      apply app_inv_head in Htr as <-.
      apply P_app; [exact H1|]. by eapply IH.
Qed.

Lemma lift_scenario sc w : P (scenario_events cfg E sc w).
Proof.
  destruct (process_scenario_shape cfg E sc w) as [_ Hshape].
  destruct Hshape as [| |out w1 l1 w2 l2 ea Hloop Htr
                      |out w1 l1 w2 l2 w3 l3 ea er Hloop Htr _ _ _ _ _ _
                         Hloop2 Htr2 _].
  - repeat (apply P_cons; [done | done |]). exact P_nil.
  - repeat (apply P_cons; [done | done |]). exact P_nil.
  - apply P_app; [repeat (apply P_cons; [done | done |]); exact P_nil|].
    apply P_app; [by eapply lift_attempt_loop | by apply P_frame].
  - apply P_app; [repeat (apply P_cons; [done | done |]); exact P_nil|].
    apply P_app; [by eapply lift_attempt_loop|].
    apply P_app; [by eapply lift_refine_loop | by apply P_frame].
Qed.

Lemma lift_run scs w : P (run_events cfg E scs w).
Proof.
  revert w. induction scs as [|sc scs IH]; intros w.
  - rewrite run_events_nil. exact P_nil.
  - rewrite run_events_cons. apply P_app; [apply lift_scenario | apply IH].
Qed.

End Lift.

End WholeRun.

(** ** The approval gate and the state of the tree over a whole run *)

Section Gate.

Variable cfg : Config.
Variable E : Env.

Lemma app_eq_split {A} (a b pre : list A) e post :
  a ++ b = pre ++ e :: post →
  (∃ post', a = pre ++ e :: post' ∧ post = post' ++ b)
  ∨ (∃ pre', pre = a ++ pre' ∧ b = pre' ++ e :: post).
Proof.
  revert pre. induction a as [|x a IH]; intros pre H.
  - right. by exists pre.
  - destruct pre as [|p pre]; cbn in H; injection H as -> H.
    + left. by exists a.
    + destruct (IH _ H) as [(post' & -> & ->)|(pre' & -> & ->)].
      * left. by exists post'.
      * right. by exists pre'.
Qed.

Lemma gated_nil : gated [].
Proof. intros pre t d ok post H. by destruct pre. Qed.

Lemma gated_app a b : gated a → gated b → gated (a ++ b).
Proof.
  intros Ha Hb pre t d ok post H.
  apply app_eq_split in H as [(post' & H & _)|(pre' & -> & H)].
  - by eapply Ha.
  - destruct (Hb _ _ _ _ _ H) as (p & answer & -> & Hyes).
    exists (a ++ p), answer. by rewrite app_assoc.
Qed.

Lemma gated_frame e : is_frame_event e = true → gated [e].
Proof.
  intros He pre t d ok post H.
  destruct pre as [|? [|? ?]]; by simplify_eq/=.
Qed.

Lemma gated_attempt round sc attempt w l w' l' brk evs :
  require_approval cfg = true →
  attempt_body cfg E round sc attempt (w, l) = (w', l', brk) →
  trace w' = trace w ++ evs → gated evs.
Proof.
  intros Hreq.
  unfold attempt_body, propose_patch, approval, ensure_clean_worktree,
    apply_unified_diff_with_git, run_tests.
  rewrite Hreq.
  cbn [negb emit set_tree trace tree items files].
  intros H Htr.
  repeat case_match; simplify_eq/=.
  all: try (rewrite <- ?app_assoc in Htr; apply app_inv_head in Htr as <-).
  all: intros pre t d ok post Heq; cbn [app] in Heq.
  all: do 6 (try (destruct pre as [|? pre]; simplify_eq/=)).
  all: eexists [_], _; split; [reflexivity|].
  all: match goal with H : negb ?b = false |- _ => by destruct b end.
Qed.

Lemma silent_attempt round sc attempt w l w' l' brk evs :
  require_approval cfg = false →
  attempt_body cfg E round sc attempt (w, l) = (w', l', brk) →
  trace w' = trace w ++ evs → Forall (λ e, is_approval e = false) evs.
Proof.
  intros Hreq.
  unfold attempt_body, propose_patch, approval, ensure_clean_worktree,
    apply_unified_diff_with_git, run_tests.
  rewrite Hreq.
  cbn [negb emit set_tree trace tree items files].
  intros H Htr.
  repeat case_match; simplify_eq/=.
  all: try (rewrite <- ?app_assoc in Htr; apply app_inv_head in Htr as <-).
  all: by repeat constructor.
Qed.

Lemma chain_impl (R R' : option event → event → Prop) prev evs :
  (∀ prev e, R prev e → R' prev e) → chain R prev evs → chain R' prev evs.
Proof.
  intros HR. revert prev. induction evs as [|e evs IH]; intros prev; [done|].
  intros [? ?]. split; auto.
Qed.

Lemma guarded_of_baseline parent prev e :
  observes_baseline parent prev e → guarded prev e.
Proof.
  destruct e; cbn; try done.
  - intros [->|(d & -> & ->)]; [by left|]. right. by exists (clean_at parent), d.
  - by intros [-> ->].
Qed.

Lemma guarded_frame e : is_frame_event e = true → steady guarded [e].
Proof.
  intros He prev. split; [|done].
  destruct e; cbn in *; try done. left. by case_bool_decide.
Qed.

Lemma guarded_attempt round sc attempt w l w' l' brk evs :
  attempt_body cfg E round sc attempt (w, l) = (w', l', brk) →
  trace w' = trace w ++ evs → steady guarded evs.
Proof.
  intros H Htr.
  apply attempt_body_spec in H as (response & e1 & Htr1 & _ & _ & _ & Hcase).
  rewrite Htr1 in Htr. apply app_inv_head in Htr as <-.
  eapply attempt_case_summary in Hcase as [[Hb _ _ _ _ _ _] _].
  intros prev. eapply chain_impl; [apply guarded_of_baseline | apply Hb].
Qed.

Lemma run_guarded scs w : steady guarded (run_events cfg E scs w).
Proof.
  apply lift_run.
  - apply steady_nil.
  - apply steady_app.
  - intros e He _. by apply guarded_frame.
  - intros. by apply guarded_frame.
  - apply guarded_attempt.
Qed.

Lemma run_gated scs w :
  require_approval cfg = true → gated (run_events cfg E scs w).
Proof.
  intros Hreq. apply lift_run.
  - apply gated_nil.
  - apply gated_app.
  - intros e He _. by apply gated_frame.
  - intros. by apply gated_frame.
  - intros. by eapply gated_attempt.
Qed.

(** Over a whole run, whatever the collaborators answer, a patch is
    applied right after a reset, to a tree that holds no edit, and the
    tests run on a tree that holds no edit or just the one patch applied
    right before: no edit of one attempt or scenario is left for the
    next. *)
Theorem run_leaves_no_edit_behind scs w pre e post :
  run_events cfg E scs w = pre ++ e :: post → guarded (last pre) e.
Proof.
  intros Heq. pose proof (run_guarded scs w None) as Hst.
  rewrite Heq in Hst.
  apply chain_at in Hst. by rewrite last_or_None in Hst.
Qed.

(** When approval is required, every patch applied in a run comes right
    after a reset that follows the prompt for that very patch, which the
    user answered with y. *)
Theorem patches_need_consent scs w pre t d ok post :
  require_approval cfg = true →
  run_events cfg E scs w = pre ++ EvApplyPatch t d ok :: post →
  ∃ pre' answer,
    pre = pre' ++ [EvApproval d answer; EvCleanWorktree]
    ∧ says_yes answer = true.
Proof.
  intros Hreq Heq. pose proof (run_gated scs w Hreq) as Hgated.
  exact (Hgated pre t d ok post Heq).
Qed.

(** When approval is required and the user never answers y, no patch is
    applied in the whole run and every test run sees a tree that holds no
    edit. *)
Theorem declined_patches_are_not_applied scs w :
  require_approval cfg = true →
  forallb declined (run_events cfg E scs w) = true →
  Forall unpatched (run_events cfg E scs w).
Proof.
  intros Hreq Hno.
  assert (∀ pre t d ok post,
            run_events cfg E scs w ≠ pre ++ EvApplyPatch t d ok :: post)
    as Hnone.
  { intros pre t d ok post Heq.
    destruct (run_gated scs w Hreq _ _ _ _ _ Heq)
      as (pre' & answer & -> & Hyes).
    rewrite Heq, <- app_assoc in Hno. cbn [app] in Hno.
    rewrite forallb_app in Hno. apply andb_true_iff in Hno as [_ Hno].
    cbn [forallb declined] in Hno. by rewrite Hyes in Hno. }
  apply Forall_forall. intros e He.
  apply list_elem_of_split in He as (pre & post & Heq).
  destruct e; try done.
  - pose proof (run_guarded scs w None) as Hst. rewrite Heq in Hst.
    apply chain_at in Hst. rewrite last_or_None in Hst.
    destruct Hst as [?|(t0 & d & Hlast & _)]; [done|].
    apply last_Some in Hlast as (pre' & ->).
    rewrite <- app_assoc in Heq. by apply Hnone in Heq.
  - by apply Hnone in Heq.
Qed.

(** When approval is not required, the user is never asked. *)
Theorem no_prompt_unless_required scs w :
  require_approval cfg = false →
  Forall (λ e, is_approval e = false) (run_events cfg E scs w).
Proof.
  intros Hreq. apply lift_run.
  - constructor.
  - intros a b. apply Forall_app_2.
  - intros e He _. constructor; [|constructor]. by destruct e.
  - intros. by repeat constructor.
  - intros. by eapply silent_attempt.
Qed.

(** A whole run stays within the budgets of its scenarios: the proposer
    is called at most maxAttempts * (1 + maxRefinements) times per
    scenario, the coach at most maxRefinements times, and at most one log
    is written per scenario. The ledger only grows at its end and stays
    free of duplicates, by at most four items per coach call. *)
Theorem run_within_budget scs w :
  let evs := run_events cfg E scs w in
  let w' := loop_over_bug_scenarios cfg E scs w in
  let a := Z.to_nat (max_fix_attempts_per_bug cfg) in
  let r := Z.to_nat (max_refine_iterations_per_bug cfg) in
  (count_propose evs ≤ length scs * (a * (1 + r))
   ∧ count_of is_refine evs ≤ length scs * r
   ∧ count_of is_write_log evs ≤ length scs)%nat
  ∧ items w `prefix_of` items w'
  ∧ (NoDup (items w) → NoDup (items w'))
  ∧ (length (items w') ≤ length (items w) + 4 * count_of is_refine evs)%nat.
Proof.
  intros evs w' a r. subst evs w'. revert w.
  induction scs as [|sc scs IH]; intros w.
  - rewrite run_events_nil. cbn. split_and!; try done; lia.
  - rewrite run_events_cons.
    change (loop_over_bug_scenarios cfg E (sc :: scs) w)
      with (loop_over_bug_scenarios cfg E scs (process_scenario cfg E sc w)).
    destruct (IH (process_scenario cfg E sc w))
      as ((Hp & Hr & Hw) & Hx & Hn & Hg).
    destruct (scenario_counts cfg E sc w) as (Hp1 & Hr1 & _ & _ & Hw1).
    destruct (scenario_ledger cfg E sc w) as (Hx1 & Hn1 & Hg1).
    fold a in Hp1. fold r in Hp1, Hr1.
    unfold count_propose in *. rewrite !count_of_app. cbn [length].
    split_and!; [nia | nia | lia | by etrans | auto | lia].
Qed.

End Gate.

(** ** A coach that gives nothing, and a run without the service *)

Section NoService.

Variable cfg : Config.
Variable E : Env.

Lemma scenario_unsaved sc w :
  count_of is_save (scenario_events cfg E sc w) = 0%nat →
  items (process_scenario cfg E sc w) = items w.
Proof.
  destruct (process_scenario_shape cfg E sc w) as [_ Hshape].
  destruct Hshape as [Hi _|out Hi _
                      |out w1 l1 w2 l2 ea ? ? Hi1 _ _ _ _ _ Hw
                      |out w1 l1 w2 l2 w3 l3 ea er ? ? Hi1 _ _ _ _ _ ? ? Hw];
    stage_facts; try done.
  - intros _. rewrite Hw. cbn [write_log emit write_text items]. congruence.
  - rewrite !count_of_app. intros Hz. rewrite Hw.
    cbn [write_log emit write_text items].
    destruct Hrounds as [_ _ _ _ _ _ _ _ Hu _ _ _].
    destruct Hu as [-> _]; [lia | congruence].
Qed.

Lemma run_unsaved scs w :
  count_of is_save (run_events cfg E scs w) = 0%nat →
  items (loop_over_bug_scenarios cfg E scs w) = items w.
Proof.
  revert w. induction scs as [|sc scs IH]; intros w; [done|].
  rewrite run_events_cons, count_of_app. intros Hz.
  change (loop_over_bug_scenarios cfg E (sc :: scs) w)
    with (loop_over_bug_scenarios cfg E scs (process_scenario cfg E sc w)).
  rewrite IH by lia. apply scenario_unsaved. lia.
Qed.

Lemma attempt_events_only round sc attempt w l w' l' brk evs :
  attempt_body cfg E round sc attempt (w, l) = (w', l', brk) →
  trace w' = trace w ++ evs → Forall (λ e, is_attempt_event e = true) evs.
Proof.
  intros H Htr.
  apply attempt_body_spec in H as (response & e1 & Htr1 & _ & _ & _ & Hcase).
  rewrite Htr1 in Htr. apply app_inv_head in Htr as <-.
  by eapply attempt_case_summary in Hcase as [[_ _ He _ _ _ _] _].
Qed.

Lemma run_never_saves scs w :
  (∀ h p, Refiner.parse (json_loads E) (strip (llm_ref E h p)) = []) →
  count_of is_save (run_events cfg E scs w) = 0%nat.
Proof.
  intros Hcoach. apply count_of_none. apply lift_run.
  - constructor.
  - intros a b. apply Forall_app_2.
  - intros e _ He. by repeat constructor.
  - intros h p content Hne. by destruct Hne.
  - intros. eapply Forall_impl; [by eapply attempt_events_only|].
    by intros [].
Qed.

(** When the coach never gives a usable guideline, a whole run never
    saves the ledger and leaves its items as they were. *)
Theorem useless_coach_freezes_ledger scs w :
  (∀ h p, Refiner.parse (json_loads E) (strip (llm_ref E h p)) = []) →
  count_of is_save (run_events cfg E scs w) = 0%nat
  ∧ items (loop_over_bug_scenarios cfg E scs w) = items w.
Proof.
  intros Hcoach. pose proof (run_never_saves scs w Hcoach) as Hz.
  split; [exact Hz | by apply run_unsaved].
Qed.

Lemma placeholder_is_no_diff :
  looks_like_diff (strip ClaudeClient.placeholder) = false.
Proof. vm_compute. reflexivity. Qed.

Lemma placeholder_gives_no_guideline loads :
  loads ClaudeClient.placeholder = None →
  Refiner.parse loads (strip ClaudeClient.placeholder) = [].
Proof.
  intros H. unfold Refiner.parse.
  replace (strip ClaudeClient.placeholder) with ClaudeClient.placeholder
    by (vm_compute; reflexivity).
  rewrite H. vm_compute. reflexivity.
Qed.

Lemma placeholder_attempt round sc attempt w l w' l' brk evs :
  llm_bug E = ClaudeClient.complete None →
  attempt_body cfg E round sc attempt (w, l) = (w', l', brk) →
  trace w' = trace w ++ evs →
  Forall (λ e, unpatched e ∧ is_approval e = false ∧ is_save e = false) evs.
Proof.
  intros Hllm. unfold attempt_body, propose_patch. rewrite Hllm.
  cbn [ClaudeClient.complete]. rewrite placeholder_is_no_diff.
  cbn [negb emit trace]. intros H Htr. injection H as <- <- <-.
  cbn [trace] in Htr. apply app_inv_head in Htr as <-.
  constructor; [|constructor]. by split_and!.
Qed.

(** Without the completion service ([ClaudeClient] with no SDK or key), and
    with a [json.loads] that rejects the placeholder text, a run applies
    no patch, asks the user nothing, runs the tests on trees without edits
    only, never saves the ledger and leaves its items as they were. *)
Theorem without_service_nothing_changes scs w :
  llm_bug E = ClaudeClient.complete None →
  llm_ref E = ClaudeClient.complete None →
  json_loads E ClaudeClient.placeholder = None →
  Forall (λ e, unpatched e ∧ is_approval e = false ∧ is_save e = false)
    (run_events cfg E scs w)
  ∧ items (loop_over_bug_scenarios cfg E scs w) = items w.
Proof.
  intros Hbug Href Hjson.
  assert (∀ h p, Refiner.parse (json_loads E) (strip (llm_ref E h p)) = [])
    as Hcoach.
  { intros h p. rewrite Href. cbn [ClaudeClient.complete].
    by apply placeholder_gives_no_guideline. }
  pose proof (run_never_saves scs w Hcoach) as Hz.
  split; [|by apply run_unsaved].
  apply lift_run.
  - constructor.
  - intros a b. apply Forall_app_2.
  - intros e Hf He. constructor; [|constructor].
    split_and!; [|by destruct e | done].
    destruct e; cbn in *; try done. by case_bool_decide.
  - intros h p content Hne. by destruct Hne.
  - intros. by eapply placeholder_attempt.
Qed.

End NoService.

(** ** The shape test and the bullets of the prompt *)

Section ShapeTest.



Lemma lacks_lstrip_false c s : lacks c (lstrip s) = false → lacks c s = false.
Proof.
  intros H. destruct (lacks c s) eqn:Hs; [|done].
  by rewrite lacks_lstrip in H.
Qed.




(** The bullets handed to the proposer and to the coach are never empty:
    the text is one line [- item] for each listed item, where the listed
    items are the ledger's, or the five default lessons when the ledger is
    empty. For a ledger of stored items the pattern of [load] reads the
    listed items back, in order. *)
Theorem bullets_show_the_ledger its :
  Forall Guidelines.storable its →
  let defaults :=
    ["Think step-by-step. Isolate root cause before editing.";
     "Do not modify tests. Change only the minimal app code.";
     "Prefer small, targeted diffs. Preserve public APIs.";
     "Check for null/undefined, off-by-one, and incorrect assumptions.";
     "Respect TypeScript types; ensure code compiles."]%string in
  let listed := match its with [] => defaults | _ => its end in
  let shown := Guidelines.findall_blocks (Guidelines.as_bullets its) in
  Guidelines.as_bullets its
  = concat ((λ it, "- " +:+ it +:+ nl) <$> listed)
  ∧ Guidelines.as_bullets its ≠ ""%string
  ∧ shown ≠ []
  ∧ (its ≠ [] → shown = its)
  ∧ (its = [] → shown = defaults).
Proof.
  intros Hits defaults listed shown. subst defaults listed shown.
  destruct its as [|it its].
  - split_and!; [by vm_compute | done | by vm_compute | done
                | intros _; by vm_compute].
  - change (Guidelines.as_bullets (it :: its))
      with (concat (Guidelines.bullet <$> it :: its)).
    rewrite bullets_blocks by done. split_and!; done.
Qed.

End ShapeTest.

(** ** The further properties at concrete runs *)

Lemma scenarios_have_a_parent_witness :
  Forall (λ sc, parent_commit sc ≠ ""%string
                ∧ lacks " " (parent_commit sc) = true
                ∧ lacks "|" (fix_commit sc) = true
                ∧ lacks "|" (subject sc) = true
                ∧ files_changed sc = []
                ∧ human_diff sc = ""%string)
    Demo.plain_scenarios
  ∧ (length Demo.plain_scenarios
     ≤ length (splitlines (git_log_output Demo.plain_commits)))%nat.
Proof.
  apply (scenarios_have_a_parent (λ _ _, []) (λ _ _, ""%string)
           (git_log_output Demo.plain_commits) Demo.plain_scenarios).
  vm_compute. reflexivity.
Defined.

Lemma read_file_bytes_keeps_both_ends_witness :
  ∃ head middle tail,
    Demo.five_bytes = head ++ middle ++ tail
    ∧ middle ≠ []
    ∧ Z.of_nat (length head) = 3 `div` 2
    ∧ Z.of_nat (length head + length tail) = 3
    ∧ read_file_bytes string_of_list_byte Demo.snip (Some Demo.five_bytes) 3
      = (string_of_list_byte head +:+ Demo.snip
         +:+ string_of_list_byte tail).
Proof.
  apply (read_file_bytes_keeps_both_ends string_of_list_byte Demo.snip
           Demo.five_bytes 3).
  - reflexivity.
  - vm_compute. reflexivity.
Defined.

Lemma read_file_bytes_zero_keeps_all_witness :
  read_file_bytes string_of_list_byte Demo.snip (Some Demo.five_bytes) 0
  = (string_of_list_byte [] +:+ Demo.snip
     +:+ string_of_list_byte Demo.five_bytes).
Proof.
  apply (read_file_bytes_zero_keeps_all string_of_list_byte Demo.snip
           Demo.five_bytes).
  vm_compute. discriminate.
Defined.

Lemma ledger_file_follows_items_witness :
  let evs := scenario_events Demo.cfg Demo.env_refined Demo.sc Demo.w0 in
  let w' := process_scenario Demo.cfg Demo.env_refined Demo.sc Demo.w0 in
  let g := guidelines_file Demo.cfg in
  (count_of is_save evs = 0%nat →
   items w' = items Demo.w0 ∧ files w' !! g = files Demo.w0 !! g)
  ∧ (count_of is_save evs ≠ 0%nat →
     files w' !! g = Some (Guidelines.save_text (items w')))
  ∧ (files Demo.w0 !! g = Some (Guidelines.save_text (items Demo.w0)) →
     files w' !! g = Some (Guidelines.save_text (items w'))).
Proof.
  apply (ledger_file_follows_items Demo.cfg Demo.env_refined Demo.sc
           Demo.w0).
  vm_compute. discriminate.
Defined.


Lemma run_leaves_no_edit_behind_witness :
  let evs :=
    run_events Demo.cfg Demo.env_refined [Demo.sc; Demo.sc] Demo.w0 in
  guarded (last (take 25 evs))
    (EvApplyPatch (clean_at (parent_commit Demo.sc)) Demo.good_diff true).
Proof.
  intros evs.
  apply (run_leaves_no_edit_behind Demo.cfg Demo.env_refined
           [Demo.sc; Demo.sc] Demo.w0 (take 25 evs) _ (drop 26 evs)).
  vm_compute. reflexivity.
Defined.

Lemma patches_need_consent_witness :
  let evs :=
    run_events Demo.cfg_ask Demo.env_refined [Demo.sc] Demo.w0 in
  ∃ pre' answer,
    take 8 evs = pre' ++ [EvApproval Demo.stale_diff answer; EvCleanWorktree]
    ∧ says_yes answer = true.
Proof.
  intros evs.
  apply (patches_need_consent Demo.cfg_ask Demo.env_refined [Demo.sc]
           Demo.w0 (take 8 evs) (clean_at (parent_commit Demo.sc))
           Demo.stale_diff false (drop 9 evs)).
  - reflexivity.
  - vm_compute. reflexivity.
Defined.

Lemma declined_patches_are_not_applied_witness :
  Forall unpatched
    (run_events Demo.cfg_ask Demo.env_exhausted [Demo.sc] Demo.w0).
Proof.
  apply (declined_patches_are_not_applied Demo.cfg_ask Demo.env_exhausted
           [Demo.sc] Demo.w0).
  - reflexivity.
  - vm_compute. reflexivity.
Defined.

Lemma no_prompt_unless_required_witness :
  Forall (λ e, is_approval e = false)
    (run_events Demo.cfg Demo.env_refined [Demo.sc] Demo.w0).
Proof.
  apply (no_prompt_unless_required Demo.cfg Demo.env_refined [Demo.sc]
           Demo.w0).
  reflexivity.
Defined.

Lemma useless_coach_freezes_ledger_witness :
  count_of is_save
    (run_events Demo.cfg Demo.env_exhausted [Demo.sc] Demo.w0) = 0%nat
  ∧ items (loop_over_bug_scenarios Demo.cfg Demo.env_exhausted [Demo.sc]
             Demo.w0)
    = items Demo.w0.
Proof.
  apply (useless_coach_freezes_ledger Demo.cfg Demo.env_exhausted [Demo.sc]
           Demo.w0).
  intros h p. vm_compute. reflexivity.
Defined.

Lemma without_service_nothing_changes_witness :
  Forall (λ e, unpatched e ∧ is_approval e = false ∧ is_save e = false)
    (run_events Demo.cfg Demo.env_anomaly [Demo.sc] Demo.w0)
  ∧ items (loop_over_bug_scenarios Demo.cfg Demo.env_anomaly [Demo.sc]
             Demo.w0)
    = items Demo.w0.
Proof.
  apply (without_service_nothing_changes Demo.cfg Demo.env_anomaly
           [Demo.sc] Demo.w0); reflexivity.
Defined.

Lemma bullets_show_the_ledger_witness :
  let shown :=
    Guidelines.findall_blocks (Guidelines.as_bullets Demo.two_guidelines) in
  Guidelines.as_bullets Demo.two_guidelines
  = concat ((λ it, "- " +:+ it +:+ nl) <$> Demo.two_guidelines)
  ∧ Guidelines.as_bullets Demo.two_guidelines ≠ ""%string
  ∧ shown ≠ []
  ∧ (Demo.two_guidelines ≠ [] → shown = Demo.two_guidelines)
  ∧ (Demo.two_guidelines = [] →
     shown
     = ["Think step-by-step. Isolate root cause before editing.";
        "Do not modify tests. Change only the minimal app code.";
        "Prefer small, targeted diffs. Preserve public APIs.";
        "Check for null/undefined, off-by-one, and incorrect assumptions.";
        "Respect TypeScript types; ensure code compiles."]%string).
Proof.
  apply (bullets_show_the_ledger Demo.two_guidelines).
  repeat constructor; try discriminate; vm_compute; reflexivity.
Defined.
